(** * AVL tree of [AvlTree.cpp]: a shallow embedding and its properties

    The class [AVL<T>] keeps a binary search tree of heap nodes, each
    with a key, a cached height and two exclusively owned children.
    [main.cpp] instantiates it at [T = int].  A tree of exclusively
    owned nodes is a value of an inductive type: [Null] is [nullptr],
    and a node is its four fields.  Keys are integers, the cached height
    is the [long long] field [height] (a [Z]: the heights of a tree that
    fits in memory are far from the 64-bit limits).

    A null pointer dereference is undefined behaviour in the source; the
    functions that may dereference a child return [option], with [None]
    for that case. *)

From Stdlib Require Import ZArith Lia Ascii String DecimalString Sorting.Sorted.
From stdpp Require Import base tactics option list numbers sorting.

Local Open Scope Z_scope.

(** ** Nodes *)

Inductive Node : Type :=
| Null : Node
| mkNode (key : Z) (height_field : Z) (left right : Node) : Node.

(** [static size_type height(Node *node)]: the cached field, 0 for
    [nullptr]. *)
Definition height (node : Node) : Z :=
  match node with
  | Null => 0
  | mkNode _ h _ _ => h
  end.

(** [explicit Node(T value)]: height 1, no children. *)
Definition new_Node (value : Z) : Node := mkNode value 1 Null Null.

(** ** search *)

Fixpoint search (root : Node) (value : Z) : option Node :=
  match root with
  | Null => None
  | mkNode key _ l r =>
      if key =? value then Some root
      else if key <? value then search r value
      else search l value
  end.

(** ** Rotations *)

(** [rightRotation(root)]: [root->left] becomes the new root; the old
    root's height is recomputed first, then the new root's. *)
Definition rightRotation (root : Node) : option Node :=
  match root with
  | mkNode key _ (mkNode lkey _ lleft lright) r =>
      let root' := mkNode key (1 + Z.max (height lright) (height r)) lright r in
      Some (mkNode lkey (1 + Z.max (height lleft) (height root')) lleft root')
  | _ => None
  end.

(** [leftRotation(root)]: the mirror image. *)
Definition leftRotation (root : Node) : option Node :=
  match root with
  | mkNode key _ l (mkNode rkey _ rleft rright) =>
      let root' := mkNode key (1 + Z.max (height l) (height rleft)) l rleft in
      Some (mkNode rkey (1 + Z.max (height root') (height rright)) root' rright)
  | _ => None
  end.

(** ** insert *)

(** The tail of [insert] after the recursive call: the height of [root]
    is recomputed from its children, and the balance decides the
    rotation, with [value] compared to the key of the heavy child. *)
Definition insert_rebalance (value : Z) (key : Z) (l r : Node) : option Node :=
  let root := mkNode key (1 + Z.max (height l) (height r)) l r in
  let balance := height l - height r in
  if 1 <? balance then
    match l with
    | Null => None
    | mkNode lkey _ _ _ =>
        if value <? lkey then rightRotation root
        else
          l' ← leftRotation l;
          rightRotation (mkNode key (height root) l' r)
    end
  else if balance <? -1 then
    match r with
    | Null => None
    | mkNode rkey _ _ _ =>
        if value >? rkey then leftRotation root
        else
          r' ← rightRotation r;
          leftRotation (mkNode key (height root) l r')
    end
  else Some root.

Fixpoint insert (root : Node) (value : Z) : option Node :=
  match root with
  | Null => Some (new_Node value)
  | mkNode key _ l r =>
      if value <? key then
        l' ← insert l value;
        insert_rebalance value key l' r
      else if value >? key then
        r' ← insert r value;
        insert_rebalance value key l r'
      else insert_rebalance value key l r
  end.

(** ** remove *)

(** The [while] loop of the two-children case and the branch after it,
    for a right child [right] whose left child exists.  The loop walks
    down left children while [right->left->left] exists; then the left
    child of the node it stops at is the successor: its key is returned,
    and the node's left pointer is set to [nullptr].  No field of the
    nodes on the way is touched otherwise, and the successor's own right
    subtree is not linked anywhere.  ([None] is for a [right] without a
    left child, for which [remove] takes the other branch.) *)
Fixpoint detach_leftmost (r : Node) : option (Z * Node) :=
  match r with
  | mkNode key h (mkNode lkey _ lleft _ as l) rright =>
      match lleft with
      | Null => Some (lkey, mkNode key h Null rright)
      | mkNode _ _ _ _ =>
          '(skey, l') ← detach_leftmost l;
          Some (skey, mkNode key h l' rright)
      end
  | _ => None
  end.

(** The branches of the rebalancing at the end of [remove]. *)
Inductive rotation_case : Type :=
| NoRotation | SingleRight | LeftThenRight | SingleLeft | RightThenLeft.

(** The choice made at lines 320-336: the guards compare the cached
    heights of the two children of [root]. *)
Definition remove_case (l r : Node) : rotation_case :=
  let balance := height l - height r in
  if balance >? 1 then
    if height l >=? height r then SingleRight else LeftThenRight
  else if balance <? -1 then
    if height r >=? height l then SingleLeft else RightThenLeft
  else NoRotation.

(** The tail of [remove] for a non-null [root]: height update, then the
    rotation chosen by [remove_case]. *)
Definition remove_rebalance (key : Z) (l r : Node) : option Node :=
  let root := mkNode key (1 + Z.max (height l) (height r)) l r in
  match remove_case l r with
  | NoRotation => Some root
  | SingleRight => rightRotation root
  | LeftThenRight =>
      l' ← leftRotation l;
      rightRotation (mkNode key (height root) l' r)
  | SingleLeft => leftRotation root
  | RightThenLeft =>
      r' ← rightRotation r;
      leftRotation (mkNode key (height root) l r')
  end.

(** [remove_rebalance] on a pointer that may be null ("Tree became
    empty"). *)
Definition remove_finish (root : Node) : option Node :=
  match root with
  | Null => Some Null
  | mkNode key _ l r => remove_rebalance key l r
  end.

Fixpoint remove (root : Node) (value : Z) : option Node :=
  match root with
  | Null => Some Null
  | mkNode key h l r =>
      if value <? key then
        l' ← remove l value;
        remove_rebalance key l' r
      else if value >? key then
        r' ← remove r value;
        remove_rebalance key l r'
      else
        match r with
        | Null => remove_finish l
        | mkNode rkey _ rleft rright =>
            match l with
            | Null => remove_finish r
            | mkNode _ _ _ _ =>
                match rleft with
                | Null => remove_rebalance rkey l rright
                | mkNode _ _ _ _ =>
                    '(skey, r') ← detach_leftmost r;
                    remove_rebalance skey l r'
                end
            end
        end
  end.

(** ** The public interface: a tree object holding [root] *)

Inductive op : Type :=
| Insert (value : Z)
| Remove (value : Z).

Definition apply_op (root : Node) (o : op) : option Node :=
  match o with
  | Insert v => insert root v
  | Remove v => remove root v
  end.

(** A sequence of calls on a tree, starting from [root]. *)
Fixpoint run (root : Node) (ops : list op) : option Node :=
  match ops with
  | [] => Some root
  | o :: ops' => root' ← apply_op root o; run root' ops'
  end.

(** The calls from a freshly constructed (empty) tree. *)
Definition from_empty (ops : list op) : option Node := run Null ops.

(** ** Rendering: the grid of cells *)

(** A [std::string] is a list of characters. *)
Abbreviation str := (list ascii).

(** [operator<<] of an [int] key into the string stream: its decimal
    digits, with a minus sign for a negative key. *)
Definition to_string (key : Z) : str :=
  list_ascii_of_string (NilZero.string_of_int (Z.to_int key)).

Record cell_display : Type := mk_cell { value : str; present : bool }.

(** [cell_display()] and [cell_display(string value)] *)
Definition absent_cell : cell_display := mk_cell [] false.
Definition present_cell (v : str) : cell_display := mk_cell v true.

Abbreviation DisplayGrid := (list (list cell_display)).

(** The variables of the [while (true)] loop of [generateDisplayGrid].
    [traversal_stack] has the back of the vector at its head.  [depth]
    is only decremented behind a [depth == 0] test, so it is a natural
    number. *)
Record walk : Type := mk_walk {
  current : Node;
  depth : nat;
  traversal_stack : list Node;
  rows : list (list Node)
}.

Inductive outcome : Type :=
| Continue (s : walk)
| Break (rows : list (list Node))
| Fault.

(** [rows[depth].push_back(current)]; indexing past the end of [rows] is
    a fault. *)
Definition push_row (d : nat) (pn : Node) (rws : list (list Node)) : option (list (list Node)) :=
  row ← rws !! d; Some (<[d := row ++ [pn]]> rws).

(** [if (current) current = current->left] and its mirror. *)
Definition left_child (pn : Node) : Node :=
  match pn with Null => Null | mkNode _ _ l _ => l end.
Definition right_child (pn : Node) : Node :=
  match pn with Null => Null | mkNode _ _ _ r => r end.

(** One pass through the body of the loop. *)
Definition walk_step (max_depth : Z) (s : walk) : outcome :=
  if Z.of_nat (depth s) =? max_depth - 1 then
    match push_row (depth s) (current s) (rows s) with
    | None => Fault
    | Some rws =>
        if (depth s =? 0)%nat then Break rws
        else Continue (mk_walk (current s) (depth s - 1) (traversal_stack s) rws)
    end
  else if (length (traversal_stack s) =? depth s)%nat then
    match push_row (depth s) (current s) (rows s) with
    | None => Fault
    | Some rws =>
        Continue (mk_walk (left_child (current s)) (depth s + 1)
                          (current s :: traversal_stack s) rws)
    end
  else
    match rows s !! (depth s + 1)%nat with
    | None => Fault
    | Some next =>
        if (length next mod 2 =? 1)%nat then
          match traversal_stack s with
          | [] => Fault
          | back :: _ =>
              Continue (mk_walk (right_child back) (depth s + 1) (traversal_stack s) (rows s))
          end
        else if (depth s =? 0)%nat then Break (rows s)
        else
          match traversal_stack s with
          | _ :: (back :: _) as popped =>
              Continue (mk_walk back (depth s - 1) popped (rows s))
          | _ => Fault
          end
    end.

(** The loop, for at most [fuel] passes; [None] when the fuel runs out or
    on a fault. *)
Fixpoint walk_loop (fuel : nat) (max_depth : Z) (s : walk) : option (list (list Node)) :=
  match fuel with
  | O => None
  | S fuel' =>
      match walk_step max_depth s with
      | Break rws => Some rws
      | Continue s' => walk_loop fuel' max_depth s'
      | Fault => None
      end
  end.

(** The cell of a node pointer: absent for [nullptr]. *)
Definition to_cell (pn : Node) : cell_display :=
  match pn with
  | Null => absent_cell
  | mkNode key _ _ _ => present_cell (to_string key)
  end.

Definition generateDisplayGrid (fuel : nat) (root : Node) : option DisplayGrid :=
  match root with
  | Null => Some []
  | mkNode _ max_depth _ _ =>
      rws ← walk_loop fuel max_depth
              (mk_walk root 0 [] (replicate (Z.to_nat max_depth) []));
      Some (map (map to_cell) rws)
  end.

(** ** Rendering: the text *)

(** The body of the first loop of [formatGrid]: [cell_width] after one
    more cell. *)
Definition widen (w : Z) (cell : cell_display) : Z :=
  if present cell && (w <? Z.of_nat (length (value cell)))
  then Z.of_nat (length (value cell)) else w.

(** The first loop of [formatGrid]: the longest present value, at least
    3. *)
Definition longest_value (grid : DisplayGrid) : Z :=
  fold_left (fun w row => fold_left widen row w) grid 3.

(** [cell_width] once it is made odd. *)
Definition cell_width (grid : DisplayGrid) : Z :=
  let w := longest_value grid in
  if Z.rem w 2 =? 0 then w + 1 else w.

(** [string(n, ' ')]; a negative count is a fault. *)
Definition spaces (n : Z) : option str :=
  if n <? 0 then None else Some (replicate (Z.to_nat n) " "%char).

(** [1 << n] on [int]: defined for [0 <= n < 31]. *)
Definition int_shl_one (n : Z) : option Z :=
  if (0 <=? n) && (n <? 31) then Some (Z.shiftl 1 n) else None.

(** The text of cell [c] of a row of values. *)
Definition format_cell (cw c : Z) (cell : cell_display) : option str :=
  if present cell then
    let long_padding0 := cw - Z.of_nat (length (value cell)) in
    let short_padding := Z.quot long_padding0 2 in
    let long_padding := long_padding0 - short_padding in
    before ← spaces (if Z.rem c 2 =? 0 then long_padding else short_padding);
    after ← spaces (if Z.rem c 2 =? 0 then short_padding else long_padding);
    Some (before ++ value cell ++ after)
  else spaces cw.

(** The row of values of [row_elem_count] cells: each cell after its
    padding. *)
Definition format_row (cw left_pad row_elem_count : Z) (gridRow : list cell_display) : option str :=
  pieces ← mapM (fun c =>
                   pad ← spaces (if c =? 0 then left_pad else 2 * left_pad + 1);
                   cell ← gridRow !! Z.to_nat c;
                   txt ← format_cell cw c cell;
                   Some (pad ++ txt))
                (seqZ 0 row_elem_count);
  Some (concat pieces).

(** One row of slashes. *)
Definition connector_row (left_space right_space row_elem_count : Z)
    (gridRow : list cell_display) : option str :=
  pieces ← mapM (fun c =>
                   cell ← gridRow !! Z.to_nat c;
                   if Z.rem c 2 =? 0 then
                     before ← spaces (if c =? 0 then left_space else 2 * left_space + 1);
                     after ← spaces (right_space + 1);
                     Some (before ++ [if present cell then "/"%char else " "%char] ++ after)
                   else
                     before ← spaces right_space;
                     Some (before ++ [if present cell then "\"%char else " "%char]))
                (seqZ 0 row_elem_count);
  Some (concat pieces).

(** The [space] rows of slashes under a row of values. *)
Definition connector_rows (space row_elem_count : Z) (gridRow : list cell_display)
    : option (list str) :=
  mapM (fun i => connector_row (space + 1 + i) (space - 1 - i) row_elem_count gridRow)
       (seqZ 0 space).

(** The main loop of [formatGrid], from iteration [r], with [todo] the
    number of iterations left before [r] reaches [row_count]; [result]
    is in the order of the [push_back]s. *)
Fixpoint format_levels (todo : nat) (grid : DisplayGrid) (cw row_count : Z)
    (r row_elem_count left_pad : Z) (result : list str) : option (list str) :=
  match todo with
  | O => Some result
  | S todo' =>
      gridRow ← grid !! Z.to_nat (row_count - r - 1);
      let space := Z.quot (Z.shiftl 1 r * (cw + 1)) 2 - 1 in
      row ← format_row cw left_pad row_elem_count gridRow;
      if row_elem_count =? 1 then Some (result ++ [row])
      else
        slashes ← connector_rows space row_elem_count gridRow;
        format_levels todo' grid cw row_count (r + 1) (Z.quot row_elem_count 2)
                      (left_pad + space + 1) ((result ++ [row]) ++ slashes)
  end.

Definition formatGrid (grid : DisplayGrid) : option (list str) :=
  let row_count := Z.of_nat (length grid) in
  row_elem_count ← int_shl_one (row_count - 1);
  result ← format_levels (length grid) grid (cell_width grid) row_count
                         0 row_elem_count 0 [];
  Some (reverse result).

(** [row.find_first_not_of(c)]: [None] is [string::npos]. *)
Fixpoint find_first_not_of (c : ascii) (row : str) : option nat :=
  match row with
  | [] => None
  | x :: row' => if Ascii.eqb x c then S <$> find_first_not_of c row' else Some O
  end.

(** The first loop of [trimRowsLeft]; [None] is the early [return]. *)
Fixpoint trim_scan (rws : list str) (min_space : nat) : option nat :=
  match rws with
  | [] => Some min_space
  | row :: rws' =>
      let i := default (length row) (find_first_not_of " " row) in
      if (i =? 0)%nat then None
      else trim_scan rws' (if (i <? min_space)%nat then i else min_space)
  end.

(** [row.erase(0, min_space)] on every row, unless a row already starts
    with something else than a space. *)
Definition trimRowsLeft (rws : list str) : list str :=
  match rws with
  | [] => []
  | front :: _ =>
      match trim_scan rws (length front) with
      | None => rws
      | Some min_space => map (drop min_space) rws
      end
  end.

Definition newline : ascii := "010"%char.

(** The lines [display] writes, each before its ['\n']: a space, then the
    row. *)
Definition display_lines (fuel : nat) (root : Node) : option (list str) :=
  if height root =? 0 then Some (list_ascii_of_string "<empty tree>" :: [])
  else
    grid ← generateDisplayGrid fuel root;
    formattedGrid ← formatGrid grid;
    Some (map (fun row => " "%char :: row) (trimRowsLeft formattedGrid)).

(** Everything [display] writes to [out]. *)
Definition display (fuel : nat) (root : Node) : option str :=
  lines ← display_lines fuel root;
  Some (concat (map (fun line => line ++ [newline]) lines)).

(** ** The invariants of the data model *)

(** The keys of a tree, in order. *)
Fixpoint keys (t : Node) : list Z :=
  match t with
  | Null => []
  | mkNode key _ l r => keys l ++ key :: keys r
  end.

(** Ordering: every key of the left subtree is below the key of the
    node, every key of the right subtree is above it. *)
Fixpoint bst (t : Node) : Prop :=
  match t with
  | Null => True
  | mkNode key _ l r =>
      Forall (fun x => x < key) (keys l) /\ Forall (fun x => key < x) (keys r) /\
      bst l /\ bst r
  end.

(** Height correctness: the cached field of every node is one more than
    the larger height of its children. *)
Fixpoint heights_ok (t : Node) : Prop :=
  match t with
  | Null => True
  | mkNode _ h l r => h = 1 + Z.max (height l) (height r) /\ heights_ok l /\ heights_ok r
  end.

(** Balance: at every node the heights of the children differ by at most
    one. *)
Fixpoint balanced (t : Node) : Prop :=
  match t with
  | Null => True
  | mkNode _ _ l r => Z.abs (height l - height r) <= 1 /\ balanced l /\ balanced r
  end.

(** The height of a tree as a shape, whatever its cached fields say. *)
Fixpoint real_height (t : Node) : Z :=
  match t with
  | Null => 0
  | mkNode _ _ l r => 1 + Z.max (real_height l) (real_height r)
  end.

(** Every cached height is at least 1. *)
Fixpoint heights_pos (t : Node) : Prop :=
  match t with
  | Null => True
  | mkNode _ h l r => 1 <= h /\ heights_pos l /\ heights_pos r
  end.

(** ** The rebalancing of [remove] as the specification words it

    The choice by the heights of the grandchildren: for a left-heavy
    node a single right rotation when [height(left.left) >=
    height(left.right)], otherwise left-then-right; the mirror image for
    a right-heavy node. *)
Definition remove_case_by_grandchildren (l r : Node) : rotation_case :=
  let balance := height l - height r in
  if balance >? 1 then
    if height (left_child l) >=? height (right_child l) then SingleRight else LeftThenRight
  else if balance <? -1 then
    if height (right_child r) >=? height (left_child r) then SingleLeft else RightThenLeft
  else NoRotation.

(** ** The grid as the specification words it *)

(** The node in slot [i] of level [d] of the tree treated as a perfect
    binary structure; [Null] when no node is there, also below an absent
    node. *)
Fixpoint slot (t : Node) (d i : nat) : Node :=
  match d with
  | O => t
  | S d' =>
      if (i <? 2 ^ d')%nat then slot (left_child t) d' i
      else slot (right_child t) d' (i - 2 ^ d')
  end.

(** All the slots of level [d], from left to right. *)
Fixpoint level (t : Node) (d : nat) : list Node :=
  match d with
  | O => [t]
  | S d' => level (left_child t) d' ++ level (right_child t) d'
  end.

(** The rows once the subtree of [pn], a node of depth [d], has been
    walked: row [j >= d] has received level [j - d] of that subtree. *)
Definition add_levels (pn : Node) (d : nat) (rws : list (list Node)) : list (list Node) :=
  imap (fun j row => if decide (d <= j)%nat then row ++ level pn (j - d) else row) rws.

(** The number of passes of the loop spent on a subtree with [m] more
    levels below its root. *)
Fixpoint walk_steps (m : nat) : nat :=
  match m with
  | O => 1
  | S m' => 3 + 2 * walk_steps m'
  end.

(** The rows below depth [d] hold an even number of nodes: both children
    of every node walked so far are in. *)
Definition even_below (d : nat) (rws : list (list Node)) : Prop :=
  forall j row, (d < j)%nat -> rws !! j = Some row -> (length row mod 2 = 0)%nat.

(** Every present value of the row is at most [cw] characters long. *)
Definition fits (cw : Z) (row : list cell_display) : Prop :=
  Forall (fun cell => present cell = true -> Z.of_nat (length (value cell)) <= cw) row.

(** How a subtree that [insert] made one level higher looks: a new leaf,
    or a node whose child on the side of [value] is the higher one. *)
Definition grew_towards (value : Z) (t : Node) : Prop :=
  match t with
  | Null => False
  | mkNode key _ l r =>
      (l = Null /\ r = Null) \/
      (value < key /\ height l = height r + 1) \/
      (key < value /\ height r = height l + 1)
  end.

(** The lengths of the values of the present cells of a grid. *)
Definition present_lengths (grid : DisplayGrid) : list nat :=
  map (fun cell => length (value cell)) (List.filter present (concat grid)).

(** The number of space characters a row begins with. *)
Definition leading_spaces (row : str) : nat :=
  default (length row) (find_first_not_of " " row).

(** ** More invariants and measures *)

(** The cached height of every node is at least one more than the cached
    heights of its children: it may be too large, never too small. *)
Fixpoint heights_cover (t : Node) : Prop :=
  match t with
  | Null => True
  | mkNode _ h l r => 1 + Z.max (height l) (height r) <= h /\ heights_cover l /\ heights_cover r
  end.

(** The keys held by the nodes of a list of node pointers, null pointers
    skipped. *)
Definition own_keys (nodes : list Node) : list Z :=
  flat_map (fun pn => match pn with Null => [] | mkNode key _ _ _ => [key] end) nodes.

(** The keys of the first [n] levels of a tree, level after level. *)
Definition level_order (t : Node) (n : nat) : list Z :=
  concat (map (fun d => own_keys (level t d)) (seq 0 n)).

(** ** The menu of [main.cpp] *)

Module Menu.

(** [enum class UserChoice], by the values of its enumerators. *)
Definition Invalid : Z := 0.
Definition Insert : Z := 1.
Definition Delete : Z := 2.
Definition Print : Z := 3.
Definition Exit : Z := 4.

(** What [printMenu] returns, from the [unsigned short] that [cin >>
    response] stored: a response outside 1..[options.size()] is replaced
    by [-1] converted to [unsigned short], and the result is cast to
    [UserChoice]. *)
Definition printMenu (response : Z) : Z :=
  let options_size := 4 in
  if negb ((1 <=? response) && (response <=? options_size))
  then (-1) mod 2 ^ 16
  else response.

(** The branches of the [switch] of [main]; [NoCase] when no [case]
    label matches, the [switch] having no [default]. *)
Inductive branch : Type :=
| SayInvalid | DoInsert | DoDelete | DoPrint | DoExit | NoCase.

Definition main_switch (choice : Z) : branch :=
  if choice =? Invalid then SayInvalid
  else if choice =? Insert then DoInsert
  else if choice =? Delete then DoDelete
  else if choice =? Print then DoPrint
  else if choice =? Exit then DoExit
  else NoCase.

End Menu.

(** ** Ordering is preserved *)

Section Ordering.

Lemma StronglySorted_sublist (l1 l2 : list Z) :
  l1 `sublist_of` l2 -> StronglySorted Z.lt l2 -> StronglySorted Z.lt l1.
Proof.
  induction 1 as [|x l1 l2 Hsub IH|x l1 l2 Hsub IH]; intros Hs.
  - constructor.
  - apply StronglySorted_cons in Hs as [Hall Hs].
    apply StronglySorted_cons. split; [|auto].
    apply Forall_forall. intros y Hy.
    rewrite Forall_forall in Hall. apply Hall.
    eapply sublist_subseteq; eauto.
  - apply StronglySorted_cons in Hs as [_ Hs]. auto.
Qed.

Lemma StronglySorted_lt_NoDup (l : list Z) : StronglySorted Z.lt l -> NoDup l.
Proof.
  induction 1 as [|x l Hs IH Hall]; constructor; auto.
  intros Hin. rewrite Forall_forall in Hall. specialize (Hall _ Hin). lia.
Qed.

Lemma bst_sorted (t : Node) : bst t <-> StronglySorted Z.lt (keys t).
Proof.
  induction t as [|key h l IHl r IHr]; simpl.
  - split; [constructor | done].
  - rewrite StronglySorted_app, StronglySorted_cons, IHl, IHr.
    rewrite !Forall_forall. split.
    + intros (Hl & Hr & Sl & Sr). repeat split; auto.
      intros x1 x2 H1 H2. apply elem_of_cons in H2 as [->|H2]; [auto|].
      specialize (Hl _ H1). specialize (Hr _ H2). lia.
    + intros (Hlr & Sl & Hr & Sr). repeat split; auto.
      intros x Hx. apply (Hlr x key Hx). left.
Qed.

Lemma rightRotation_keys (t t' : Node) : rightRotation t = Some t' -> keys t' = keys t.
Proof.
  destruct t as [|key h [|lkey lh ll lr] r]; simpl; intros H; simplify_eq.
  simpl. by rewrite <- app_assoc.
Qed.

Lemma leftRotation_keys (t t' : Node) : leftRotation t = Some t' -> keys t' = keys t.
Proof.
  destruct t as [|key h l [|rkey rh rl rr]]; simpl; intros H; simplify_eq.
  simpl. by rewrite <- app_assoc.
Qed.

Ltac rotation_keys :=
  repeat match goal with
         | H : rightRotation _ = Some _ |- _ => apply rightRotation_keys in H; simpl in H
         | H : leftRotation _ = Some _ |- _ => apply leftRotation_keys in H; simpl in H
         | H : (_ ≫= _) = Some _ |- _ => apply bind_Some in H as (? & ? & ?)
         | H : Some _ = Some _ |- _ => injection H as <-
         end.

Lemma insert_rebalance_keys (value key : Z) (l r t' : Node) :
  insert_rebalance value key l r = Some t' -> keys t' = keys l ++ key :: keys r.
Proof.
  unfold insert_rebalance. intros H.
  repeat case_match; try done; rotation_keys; simpl in *; congruence.
Qed.

Lemma remove_rebalance_keys (key : Z) (l r t' : Node) :
  remove_rebalance key l r = Some t' -> keys t' = keys l ++ key :: keys r.
Proof.
  unfold remove_rebalance. intros H.
  repeat case_match; try done; rotation_keys; simpl in *; congruence.
Qed.

Lemma remove_finish_keys (t t' : Node) : remove_finish t = Some t' -> keys t' = keys t.
Proof.
  destruct t; simpl; intros H; [by simplify_eq|].
  by apply remove_rebalance_keys in H.
Qed.

Lemma insert_keys (t t' : Node) (value : Z) :
  insert t value = Some t' ->
  forall x, x ∈ keys t' <-> x = value \/ x ∈ keys t.
Proof.
  revert t'. induction t as [|key h l IHl r IHr]; simpl; intros t' H x.
  - simplify_eq. simpl. rewrite !elem_of_cons, elem_of_nil. tauto.
  - repeat case_match; simplify_option_eq;
      match goal with
      | H : insert_rebalance _ _ _ _ = Some _ |- _ =>
          apply insert_rebalance_keys in H; rewrite H
      end; rewrite !elem_of_app, !elem_of_cons.
    + rewrite (IHl _ eq_refl). tauto.
    + rewrite (IHr _ eq_refl). tauto.
    + assert (value = key) by lia. subst. tauto.
Qed.

Lemma insert_bst (t t' : Node) (value : Z) :
  bst t -> insert t value = Some t' -> bst t'.
Proof.
  revert t'. induction t as [|key h l IHl r IHr]; simpl; intros t' Hb H.
  - simplify_eq. simpl. repeat split; constructor.
  - destruct Hb as (Hl & Hr & Bl & Br).
    destruct (value <? key) eqn:E1; [|destruct (value >? key) eqn:E2].
    + destruct (insert l value) as [l'|] eqn:El; simpl in H; [|done].
      apply insert_rebalance_keys in H.
      apply bst_sorted. rewrite H. apply (bst_sorted (mkNode key 0 l' r)).
      simpl. repeat split; eauto.
      apply Forall_forall. intros x Hx.
      apply (insert_keys _ _ _ El) in Hx as [->|Hx]; [lia|].
      rewrite Forall_forall in Hl. auto.
    + destruct (insert r value) as [r'|] eqn:Er; simpl in H; [|done].
      apply insert_rebalance_keys in H.
      apply bst_sorted. rewrite H. apply (bst_sorted (mkNode key 0 l r')).
      simpl. repeat split; eauto.
      apply Forall_forall. intros x Hx.
      apply (insert_keys _ _ _ Er) in Hx as [->|Hx]; [lia|].
      rewrite Forall_forall in Hr. auto.
    + apply insert_rebalance_keys in H.
      apply bst_sorted. rewrite H. apply (bst_sorted (mkNode key 0 l r)).
      simpl. auto.
Qed.

Lemma detach_leftmost_keys (r r' : Node) (skey : Z) :
  detach_leftmost r = Some (skey, r') ->
  exists rest, keys r = skey :: rest /\ keys r' `sublist_of` rest.
Proof.
  revert r' skey.
  induction r as [|key h l IHl rr _]; intros r' skey H; [done|].
  destruct l as [|lkey lh ll lr]; [done|].
  destruct ll as [|llkey llh lll llr].
  - simpl in H. simplify_eq. eexists. split; [reflexivity|].
    simpl. apply sublist_inserts_l. done.
  - change (detach_leftmost (mkNode key h (mkNode lkey lh (mkNode llkey llh lll llr) lr) rr))
      with ('(skey, l') ← detach_leftmost (mkNode lkey lh (mkNode llkey llh lll llr) lr);
            Some (skey, mkNode key h l' rr)) in H.
    destruct (detach_leftmost (mkNode lkey lh (mkNode llkey llh lll llr) lr))
      as [[s l']|] eqn:E; simpl in H; [|done].
    simplify_eq.
    destruct (IHl _ _ eq_refl) as (rest & Hk & Hsub).
    exists (rest ++ key :: keys rr). split.
    + change (keys (mkNode key h (mkNode lkey lh (mkNode llkey llh lll llr) lr) rr))
        with (keys (mkNode lkey lh (mkNode llkey llh lll llr) lr) ++ key :: keys rr).
      rewrite Hk. done.
    + simpl. apply sublist_app; done.
Qed.

Lemma remove_keys (t t' : Node) (value : Z) :
  remove t value = Some t' -> keys t' `sublist_of` keys t.
Proof.
  revert t'. induction t as [|key h l IHl r IHr]; intros t' H.
  - simpl in H. by simplify_eq.
  - simpl in H. destruct (value <? key) eqn:E1; [|destruct (value >? key) eqn:E2].
    + destruct (remove l value) as [l'|] eqn:El; simpl in H; [|done].
      apply remove_rebalance_keys in H. rewrite H. simpl.
      apply sublist_app; [auto|done].
    + destruct (remove r value) as [r'|] eqn:Er; simpl in H; [|done].
      apply remove_rebalance_keys in H. rewrite H. simpl.
      apply sublist_app; [done|]. apply sublist_skip. auto.
    + destruct r as [|rkey rh rl rr].
      * apply remove_finish_keys in H. rewrite H. simpl.
        apply sublist_inserts_r. done.
      * destruct l as [|lkey lh ll lr].
        -- apply remove_finish_keys in H. rewrite H.
           change (keys (mkNode key h Null (mkNode rkey rh rl rr)))
             with (key :: keys (mkNode rkey rh rl rr)).
           apply sublist_cons. done.
        -- destruct rl as [|rlkey rlh rll rlr].
           ++ apply remove_rebalance_keys in H. rewrite H.
              change (keys (mkNode key h (mkNode lkey lh ll lr) (mkNode rkey rh Null rr)))
                with (keys (mkNode lkey lh ll lr) ++ key :: rkey :: keys rr).
              apply sublist_app; [done|]. apply sublist_cons. done.
           ++ destruct (detach_leftmost (mkNode rkey rh (mkNode rlkey rlh rll rlr) rr))
                as [[skey r']|] eqn:Ed; simpl in H; [|done].
              apply remove_rebalance_keys in H. rewrite H.
              apply detach_leftmost_keys in Ed as (rest & Hk & Hsub).
              change (keys (mkNode key h (mkNode lkey lh ll lr)
                              (mkNode rkey rh (mkNode rlkey rlh rll rlr) rr)))
                with (keys (mkNode lkey lh ll lr) ++ key ::
                        keys (mkNode rkey rh (mkNode rlkey rlh rll rlr) rr)).
              rewrite Hk. apply sublist_app; [done|].
              apply sublist_cons. apply sublist_skip. done.
Qed.

Lemma remove_bst (t t' : Node) (value : Z) :
  bst t -> remove t value = Some t' -> bst t'.
Proof.
  rewrite !bst_sorted. intros Hs H.
  eapply StronglySorted_sublist; [|exact Hs]. eapply remove_keys; eauto.
Qed.

Lemma run_bst (ops : list op) (t t' : Node) :
  bst t -> run t ops = Some t' -> bst t'.
Proof.
  revert t. induction ops as [|o ops IH]; simpl; intros t Hb H.
  - by simplify_eq.
  - destruct (apply_op t o) as [t1|] eqn:E; simpl in H; [|done].
    apply (IH t1); [|done].
    destruct o; simpl in E; eauto using insert_bst, remove_bst.
Qed.

End Ordering.

(** C5. Every tree reached from the empty tree by a sequence of [insert]
    and [remove] calls is ordered: at every node the keys of the left
    subtree are strictly below the key of the node and the keys of the
    right subtree strictly above it, and no key occurs twice.  ([run]
    has no tree to give when a call dereferences a null pointer.) *)
Theorem bst_after_every_sequence (ops : list op) (t : Node) :
  from_empty ops = Some t -> bst t /\ NoDup (keys t).
Proof.
  intros H. assert (Hb : bst t) by (eapply run_bst; [|exact H]; exact I).
  split; [done|]. apply StronglySorted_lt_NoDup. by apply bst_sorted.
Qed.

Lemma bst_after_every_sequence_witness :
  exists t, from_empty [Insert 20; Insert 10; Insert 30; Insert 25; Insert 35; Remove 20] = Some t
            /\ bst t /\ NoDup (keys t).
Proof.
  eexists. split; [reflexivity|].
  apply (bst_after_every_sequence
           [Insert 20; Insert 10; Insert 30; Insert 25; Insert 35; Remove 20]).
  reflexivity.
Defined.

(** ** [insert] keeps the invariants *)

Section InsertInvariants.

Lemma heights_ok_nonneg (t : Node) : heights_ok t -> 0 <= height t.
Proof.
  induction t as [|key h l IHl r IHr]; simpl; [lia|].
  intros (-> & Hl & Hr). specialize (IHl Hl). lia.
Qed.

Lemma heights_ok_Null (t : Node) : heights_ok t -> height t <= 0 -> t = Null.
Proof.
  destruct t as [|key h l r]; [done|]. simpl. intros (-> & Hl & Hr) Hle.
  apply heights_ok_nonneg in Hl, Hr. lia.
Qed.

(** Left-heavy by two after an insertion on the left: one of the two
    rotations of [insert] restores the balance and the former height. *)
Lemma insert_rebalance_left (value key : Z) (l' r : Node) :
  heights_ok l' -> balanced l' -> heights_ok r -> balanced r ->
  height l' = height r + 2 -> grew_towards value l' ->
  exists t', insert_rebalance value key l' r = Some t' /\
             heights_ok t' /\ balanced t' /\ height t' = height r + 2.
Proof.
  intros Hokl Hball Hokr Hbalr Hh Hgrow.
  pose proof (heights_ok_nonneg r Hokr) as Hr0.
  unfold insert_rebalance.
  destruct (Z.ltb_spec 1 (height l' - height r)); [|lia].
  destruct l' as [|lkey lh ll lr]; [done|].
  destruct Hokl as (Hlh & Hokll & Hoklr). destruct Hball as (Hbl & Hballl & Hballr).
  pose proof (heights_ok_nonneg ll Hokll) as Hll0.
  pose proof (heights_ok_nonneg lr Hoklr) as Hlr0.
  simpl in Hh, Hgrow.
  destruct Hgrow as [[-> ->]|[[Hv Hg]|[Hv Hg]]]; [simpl in *; lia| |].
  - destruct (Z.ltb_spec value lkey); [|lia].
    eexists. split; [reflexivity|]. simpl. repeat split; try done; lia.
  - destruct (Z.ltb_spec value lkey); [lia|].
    destruct lr as [|lrkey lrh lrl lrr]; [simpl in *; lia|].
    destruct Hoklr as (Hlrh & Hoklrl & Hoklrr). destruct Hballr as (Hblr & Hballrl & Hballrr).
    pose proof (heights_ok_nonneg lrl Hoklrl). pose proof (heights_ok_nonneg lrr Hoklrr).
    eexists. split; [reflexivity|]. simpl in *. repeat split; try done; lia.
Qed.

Lemma insert_rebalance_right (value key : Z) (l r' : Node) :
  heights_ok l -> balanced l -> heights_ok r' -> balanced r' ->
  height r' = height l + 2 -> grew_towards value r' ->
  exists t', insert_rebalance value key l r' = Some t' /\
             heights_ok t' /\ balanced t' /\ height t' = height l + 2.
Proof.
  intros Hokl Hball Hokr Hbalr Hh Hgrow.
  pose proof (heights_ok_nonneg l Hokl) as Hl0.
  unfold insert_rebalance.
  destruct (Z.ltb_spec 1 (height l - height r')); [lia|].
  destruct (Z.ltb_spec (height l - height r') (-1)); [|lia].
  destruct r' as [|rkey rh rl rr]; [done|].
  destruct Hokr as (Hrh & Hokrl & Hokrr). destruct Hbalr as (Hbr & Hbalrl & Hbalrr).
  pose proof (heights_ok_nonneg rl Hokrl) as Hrl0.
  pose proof (heights_ok_nonneg rr Hokrr) as Hrr0.
  simpl in Hh, Hgrow.
  destruct Hgrow as [[-> ->]|[[Hv Hg]|[Hv Hg]]]; [simpl in *; lia| |].
  - destruct (Z.gtb_spec value rkey); [lia|].
    destruct rl as [|rlkey rlh rll rlr]; [simpl in *; lia|].
    destruct Hokrl as (Hrlh & Hokrll & Hokrlr). destruct Hbalrl as (Hbrl & Hbalrll & Hbalrlr).
    pose proof (heights_ok_nonneg rll Hokrll). pose proof (heights_ok_nonneg rlr Hokrlr).
    eexists. split; [reflexivity|]. simpl in *. repeat split; try done; lia.
  - destruct (Z.gtb_spec value rkey); [|lia].
    eexists. split; [reflexivity|]. simpl. repeat split; try done; lia.
Qed.

(** No rotation when the node is balanced. *)
Lemma insert_rebalance_balanced (value key : Z) (l r : Node) :
  Z.abs (height l - height r) <= 1 ->
  insert_rebalance value key l r
  = Some (mkNode key (1 + Z.max (height l) (height r)) l r).
Proof.
  intros Hb. unfold insert_rebalance.
  destruct (Z.ltb_spec 1 (height l - height r)); [lia|].
  destruct (Z.ltb_spec (height l - height r) (-1)); [lia|]. done.
Qed.

(** On a tree with right cached heights and balanced nodes [insert]
    returns, and returns such a tree, of the same height or one more. *)
Lemma insert_avl (t : Node) (value : Z) :
  heights_ok t -> balanced t ->
  exists t', insert t value = Some t' /\ heights_ok t' /\ balanced t' /\
             (height t' = height t \/ (height t' = height t + 1 /\ grew_towards value t')).
Proof.
  induction t as [|key h l IHl r IHr]; intros Hok Hbal.
  - exists (new_Node value). simpl. repeat split; try done; try lia.
    right. split; [lia|]. by left.
  - destruct Hok as (Hh & Hokl & Hokr). destruct Hbal as (Hb & Hball & Hbalr).
    pose proof (heights_ok_nonneg l Hokl). pose proof (heights_ok_nonneg r Hokr).
    simpl insert.
    destruct (Z.ltb_spec value key) as [Hlt|Hge]; [|destruct (Z.gtb_spec value key) as [Hgt|Hle]].
    + destruct (IHl Hokl Hball) as (l' & -> & Hokl' & Hball' & Hgrow). cbn [mbind option_bind].
      destruct (Z.eq_dec (height l') (height r + 2)) as [Htwo|Hnot].
      * destruct Hgrow as [?|[? Hgrow]]; [lia|].
        destruct (insert_rebalance_left value key l' r) as (t' & -> & ? & ? & ?); try done.
        exists t'. repeat split; try done. left. simpl. lia.
      * rewrite insert_rebalance_balanced by lia.
        eexists. split; [reflexivity|]. simpl. repeat split; try done; lia.
    + destruct (IHr Hokr Hbalr) as (r' & -> & Hokr' & Hbalr' & Hgrow). cbn [mbind option_bind].
      destruct (Z.eq_dec (height r') (height l + 2)) as [Htwo|Hnot].
      * destruct Hgrow as [?|[? Hgrow]]; [lia|].
        destruct (insert_rebalance_right value key l r') as (t' & -> & ? & ? & ?); try done.
        exists t'. repeat split; try done. left. simpl. lia.
      * rewrite insert_rebalance_balanced by lia.
        eexists. split; [reflexivity|]. simpl. repeat split; try done; lia.
    + rewrite insert_rebalance_balanced by lia.
      eexists. split; [reflexivity|]. simpl. repeat split; try done; try lia.
Qed.

(** With [insert] alone every call returns, and every tree built is
    ordered, balanced and has right cached heights. *)
Lemma inserts_only_avl (values : list Z) :
  exists t, from_empty (map Insert values) = Some t /\
            bst t /\ heights_ok t /\ balanced t.
Proof.
  unfold from_empty.
  assert (Hgen : forall t0, bst t0 -> heights_ok t0 -> balanced t0 ->
            exists t, run t0 (map Insert values) = Some t /\
                      bst t /\ heights_ok t /\ balanced t).
  { induction values as [|v values IH]; intros t0 Hb Hok Hbal; simpl.
    - by exists t0.
    - destruct (insert_avl t0 v Hok Hbal) as (t1 & Hins & Hok1 & Hbal1 & _).
      rewrite Hins. cbn [mbind option_bind].
      apply IH; [|done|done]. by eapply insert_bst. }
  by apply Hgen.
Qed.

End InsertInvariants.

(** ** The rotation choice of [remove] *)

Lemma remove_double_rotation_cases (l r : Node) :
  remove_case l r = NoRotation \/
  (remove_case l r = SingleRight /\ 1 < height l - height r) \/
  (remove_case l r = SingleLeft /\ height l - height r < -1).
Proof.
  unfold remove_case.
  destruct (Z.gtb_spec (height l - height r) 1).
  - destruct (Z.geb_spec (height l) (height r)); [tauto|lia].
  - destruct (Z.ltb_spec (height l - height r) (-1)); [|tauto].
    destruct (Z.geb_spec (height r) (height l)); [tauto|lia].
Qed.

(** C10. In the rebalancing of [remove] the guard of the single right
    rotation, [height(left) >= height(right)], holds whenever the balance
    exceeds 1, and the guard of the single left rotation holds whenever
    the balance is below -1.  The two double-rotation branches are never
    taken: the result is the node itself or one rotation of it. *)
Theorem remove_double_rotation_unreachable (key : Z) (l r : Node) :
  (height l - height r > 1 -> (height l >=? height r) = true) /\
  (height l - height r < -1 -> (height r >=? height l) = true) /\
  remove_case l r <> LeftThenRight /\
  remove_case l r <> RightThenLeft /\
  let root := mkNode key (1 + Z.max (height l) (height r)) l r in
  (remove_rebalance key l r = Some root \/
   remove_rebalance key l r = rightRotation root \/
   remove_rebalance key l r = leftRotation root).
Proof.
  split; [lia|]. split; [lia|].
  unfold remove_rebalance.
  destruct (remove_double_rotation_cases l r) as [H|[[H _]|[H _]]];
    rewrite H; repeat split; try done; tauto.
Qed.

(** C2, at the tree built by inserting 3, 1, 4, 2 and while removing 4.
    Back at the root the left child (key 1) is two levels higher than the
    empty right child, and its own left child is lower than its right
    child.  The choice by the heights of the grandchildren is the double
    rotation, which would put key 2 at the root; the code takes the
    single right rotation, which puts key 1 at the root. *)
Theorem remove_rotation_ignores_grandchildren :
  let l := mkNode 1 2 Null (mkNode 2 1 Null Null) in
  let t := mkNode 3 3 l (mkNode 4 1 Null Null) in
  from_empty [Insert 3; Insert 1; Insert 4; Insert 2] = Some t /\
  remove (mkNode 4 1 Null Null) 4 = Some Null /\
  height l - height Null = 2 /\
  height (left_child l) < height (right_child l) /\
  remove_case_by_grandchildren l Null = LeftThenRight /\
  remove_case l Null = SingleRight /\
  remove t 4 = rightRotation (mkNode 3 3 l Null) /\
  remove t 4 = Some (mkNode 1 3 Null (mkNode 3 2 (mkNode 2 1 Null Null) Null)) /\
  (l' ← leftRotation l; rightRotation (mkNode 3 3 l' Null))
    = Some (mkNode 2 2 (mkNode 1 1 Null Null) (mkNode 3 1 Null Null)).
Proof. repeat split; reflexivity. Qed.

(** ** Balance and cached heights after [remove] *)

(** C3, at the calls insert 3, 1, 4, 2, remove 4.  The tree that results
    has key 1 at the root, with no left child and a right child of height
    2: the heights of the children of the root differ by 2.  The cached
    heights of this tree are the real ones. *)
Theorem remove_leaves_unbalanced_node :
  let t := mkNode 1 3 Null (mkNode 3 2 (mkNode 2 1 Null Null) Null) in
  from_empty [Insert 3; Insert 1; Insert 4; Insert 2; Remove 4] = Some t /\
  heights_ok t /\
  height (left_child t) - height (right_child t) = -2 /\
  real_height (left_child t) - real_height (right_child t) = -2 /\
  ~ balanced t.
Proof.
  repeat split; try reflexivity.
  simpl. intros (H & _). lia.
Qed.

(** C4, at the calls insert 2, 1, 4, 3, remove 2.  The removed key has
    two children and its successor 3 is the left child of node 4.  The
    successor is detached and the height of node 4 is left at 2, although
    node 4 has no child any more. *)
Theorem remove_leaves_stale_height :
  let t := mkNode 3 3 (mkNode 1 1 Null Null) (mkNode 4 2 Null Null) in
  from_empty [Insert 2; Insert 1; Insert 4; Insert 3] =
    Some (mkNode 2 3 (mkNode 1 1 Null Null) (mkNode 4 2 (mkNode 3 1 Null Null) Null)) /\
  from_empty [Insert 2; Insert 1; Insert 4; Insert 3; Remove 2] = Some t /\
  height (right_child t) = 2 /\
  1 + Z.max (height (left_child (right_child t))) (height (right_child (right_child t))) = 1 /\
  real_height (right_child t) = 1 /\
  ~ heights_ok t.
Proof.
  repeat split; try reflexivity.
  simpl. intros (_ & _ & H & _). lia.
Qed.

(** ** Searching after [remove] *)

(** C1, at the calls insert 2, 1, 6, 0, 4, 7, 5, remove 2.  Before the
    removal all seven keys are found.  The successor of 2 is 4, the left
    child of node 6, and 4 has the right child 5.  After the removal the
    key 5, which was not removed, is not found any more. *)
Theorem remove_loses_other_key :
  let before := [Insert 2; Insert 1; Insert 6; Insert 0; Insert 4; Insert 7; Insert 5] in
  let t := mkNode 2 4 (mkNode 1 2 (mkNode 0 1 Null Null) Null)
             (mkNode 6 3 (mkNode 4 2 Null (mkNode 5 1 Null Null)) (mkNode 7 1 Null Null)) in
  let t' := mkNode 4 4 (mkNode 1 2 (mkNode 0 1 Null Null) Null)
              (mkNode 6 3 Null (mkNode 7 1 Null Null)) in
  from_empty before = Some t /\
  Forall (fun w => exists h l r, search t w = Some (mkNode w h l r)) [2; 1; 6; 0; 4; 7; 5] /\
  from_empty (before ++ [Remove 2]) = Some t' /\
  search t' 2 = None /\
  search t' 5 = None /\
  keys t' = [0; 1; 4; 6; 7].
Proof.
  split; [reflexivity|]. split; [|repeat split; reflexivity].
  repeat (constructor; [do 3 eexists; reflexivity|]). constructor.
Qed.

(** ** Calls that should change nothing *)

(** C6, on trees that earlier [remove] calls have left unbalanced or with
    a stale height.
    - After insert 3, 1, 4, 2, remove 4 the tree holds key 1; inserting 1
      again rotates the tree: the root changes from 1 to 2 and cached
      heights change.
    - After insert 2, 1, 4, 3, remove 2 the tree does not hold key 5;
      removing 5 changes the cached height of node 4 from 2 to 1 and that
      of the root from 3 to 2.
    - After insert 0, 1, 2, 4, 5, 3, 6, remove 2 the tree holds key 4;
      inserting 4 again dereferences a null pointer (the right rotation
      of node 5, which has no left child). *)
Theorem no_op_calls_change_the_tree :
  (from_empty [Insert 3; Insert 1; Insert 4; Insert 2; Remove 4]
     = Some (mkNode 1 3 Null (mkNode 3 2 (mkNode 2 1 Null Null) Null)) /\
   from_empty [Insert 3; Insert 1; Insert 4; Insert 2; Remove 4; Insert 1]
     = Some (mkNode 2 2 (mkNode 1 1 Null Null) (mkNode 3 1 Null Null))) /\
  (from_empty [Insert 2; Insert 1; Insert 4; Insert 3; Remove 2]
     = Some (mkNode 3 3 (mkNode 1 1 Null Null) (mkNode 4 2 Null Null)) /\
   from_empty [Insert 2; Insert 1; Insert 4; Insert 3; Remove 2; Remove 5]
     = Some (mkNode 3 2 (mkNode 1 1 Null Null) (mkNode 4 1 Null Null))) /\
  (from_empty [Insert 0; Insert 1; Insert 2; Insert 4; Insert 5; Insert 3; Insert 6; Remove 2]
     = Some (mkNode 3 4 (mkNode 1 2 (mkNode 0 1 Null Null) Null)
               (mkNode 4 3 Null (mkNode 5 2 Null (mkNode 6 1 Null Null)))) /\
   rightRotation (mkNode 5 2 Null (mkNode 6 1 Null Null)) = None /\
   from_empty [Insert 0; Insert 1; Insert 2; Insert 4; Insert 5; Insert 3; Insert 6; Remove 2;
               Insert 4] = None).
Proof. repeat split; reflexivity. Qed.

(** ** What holds on trees that satisfy the invariants *)

Section ValidTrees.

Lemma search_Some_key (t n : Node) (value : Z) :
  search t value = Some n -> exists h l r, n = mkNode value h l r /\ value ∈ keys t.
Proof.
  induction t as [|key h l IHl r IHr]; simpl; [done|].
  destruct (Z.eqb_spec key value) as [->|_].
  - intros [= <-]. exists h, l, r. split; [done|].
    apply elem_of_app. right. left.
  - destruct (key <? value); intros H.
    + destruct (IHr H) as (h' & l' & r' & -> & Hin). exists h', l', r'. split; [done|].
      apply elem_of_app. right. by right.
    + destruct (IHl H) as (h' & l' & r' & -> & Hin). exists h', l', r'. split; [done|].
      apply elem_of_app. by left.
Qed.

Lemma search_absent (t : Node) (value : Z) : value ∉ keys t -> search t value = None.
Proof.
  intros Hnot. destruct (search t value) as [n|] eqn:E; [|done].
  apply search_Some_key in E as (? & ? & ? & _ & Hin). done.
Qed.

(** On an ordered tree, a removed key is no longer among the keys. *)
Lemma remove_key_gone (t t' : Node) (value : Z) :
  bst t -> remove t value = Some t' -> value ∉ keys t'.
Proof.
  revert t'. induction t as [|key h l IHl r IHr]; intros t' Hb H.
  - simpl in H. injection H as <-. apply not_elem_of_nil.
  - destruct Hb as (Hl & Hr & Bl & Br). rewrite Forall_forall in Hl, Hr.
    simpl in H. destruct (value <? key) eqn:E1; [|destruct (value >? key) eqn:E2].
    + destruct (remove l value) as [l'|] eqn:El; simpl in H; [|done].
      apply remove_rebalance_keys in H. rewrite H.
      rewrite elem_of_app, elem_of_cons. intros [Hin|[->|Hin]].
      * by apply (IHl l').
      * lia.
      * specialize (Hr _ Hin). lia.
    + destruct (remove r value) as [r'|] eqn:Er; simpl in H; [|done].
      apply remove_rebalance_keys in H. rewrite H.
      rewrite elem_of_app, elem_of_cons. intros [Hin|[->|Hin]].
      * specialize (Hl _ Hin). lia.
      * lia.
      * by apply (IHr r').
    + assert (value = key) as -> by lia.
      assert (Hsub : keys t' `sublist_of` keys l ++ keys r).
      { destruct r as [|rkey rh rl rr].
        - apply remove_finish_keys in H. rewrite H. simpl. by rewrite app_nil_r.
        - destruct l as [|lkey lh ll lr].
          + apply remove_finish_keys in H. rewrite H. done.
          + destruct rl as [|rlkey rlh rll rlr].
            * apply remove_rebalance_keys in H. rewrite H. done.
            * destruct (detach_leftmost (mkNode rkey rh (mkNode rlkey rlh rll rlr) rr))
                as [[skey r']|] eqn:Ed; simpl in H; [|done].
              apply remove_rebalance_keys in H. rewrite H.
              apply detach_leftmost_keys in Ed as (rest & Hk & Hsub).
              rewrite Hk. apply sublist_app; [done|]. by apply sublist_skip. }
      intros Hin. apply (sublist_subseteq _ _ Hsub) in Hin.
      apply elem_of_app in Hin as [Hin|Hin].
      * specialize (Hl _ Hin). lia.
      * specialize (Hr _ Hin). lia.
Qed.

(** The first half of C1 holds after every sequence of calls: a removed
    value is not found. *)
Lemma remove_then_search_absent (ops : list op) (t t' : Node) (value : Z) :
  from_empty ops = Some t -> remove t value = Some t' -> search t' value = None.
Proof.
  intros Ht Hrem. apply search_absent.
  eapply remove_key_gone; [|exact Hrem].
  by apply (run_bst ops Null).
Qed.

(** On a tree whose cached heights are right and whose nodes are
    balanced, [insert] of a value that is found and [remove] of a value
    that is not found return the very same tree. *)
Lemma insert_present_same (t : Node) (value : Z) :
  heights_ok t -> balanced t -> is_Some (search t value) -> insert t value = Some t.
Proof.
  induction t as [|key h l IHl r IHr]; simpl; intros Hh Hb Hs.
  - by destruct Hs.
  - destruct Hh as (Hh & Hhl & Hhr). destruct Hb as (Hb & Hbl & Hbr).
    assert (Hbal : insert_rebalance value key l r = Some (mkNode key h l r)).
    { unfold insert_rebalance.
      destruct (Z.ltb_spec 1 (height l - height r)); [lia|].
      destruct (Z.ltb_spec (height l - height r) (-1)); [lia|].
      by rewrite Hh. }
    destruct (Z.eqb_spec key value) as [->|Hne].
    + rewrite Z.ltb_irrefl. destruct (Z.gtb_spec value value); [lia|]. done.
    + destruct (Z.ltb_spec key value).
      * destruct (Z.ltb_spec value key); [lia|].
        destruct (Z.gtb_spec value key); [|lia].
        rewrite IHr by done. done.
      * destruct (Z.ltb_spec value key); [|lia].
        rewrite IHl by done. done.
Qed.

Lemma remove_absent_same (t : Node) (value : Z) :
  heights_ok t -> balanced t -> search t value = None -> remove t value = Some t.
Proof.
  induction t as [|key h l IHl r IHr]; simpl; intros Hh Hb Hs; [done|].
  destruct Hh as (Hh & Hhl & Hhr). destruct Hb as (Hb & Hbl & Hbr).
  assert (Hbal : remove_rebalance key l r = Some (mkNode key h l r)).
  { unfold remove_rebalance, remove_case.
    destruct (Z.gtb_spec (height l - height r) 1); [lia|].
    destruct (Z.ltb_spec (height l - height r) (-1)); [lia|].
    by rewrite Hh. }
  destruct (Z.eqb_spec key value) as [->|Hne]; [done|].
  destruct (Z.ltb_spec key value).
  - destruct (Z.ltb_spec value key); [lia|].
    destruct (Z.gtb_spec value key); [|lia].
    rewrite IHr by done. done.
  - destruct (Z.ltb_spec value key); [|lia].
    rewrite IHl by done. done.
Qed.

(** Cached heights stay positive, so [remove] never dereferences a null
    pointer: a left-heavy node has a left child. *)

Lemma height_nonneg (t : Node) : heights_pos t -> 0 <= height t.
Proof. destruct t; simpl; [lia|]. intros (? & _). lia. Qed.

Lemma rightRotation_pos (t t' : Node) :
  heights_pos t -> rightRotation t = Some t' -> heights_pos t'.
Proof.
  destruct t as [|key h [|lkey lh ll lr] r]; simpl; try done.
  intros (? & (? & Hll & Hlr) & Hr) [= <-]. simpl.
  apply height_nonneg in Hll as ?, Hlr as ?, Hr as ?.
  repeat split; try done; lia.
Qed.

Lemma leftRotation_pos (t t' : Node) :
  heights_pos t -> leftRotation t = Some t' -> heights_pos t'.
Proof.
  destruct t as [|key h l [|rkey rh rl rr]]; simpl; try done.
  intros (? & Hl & (? & Hrl & Hrr)) [= <-]. simpl.
  apply height_nonneg in Hl as ?, Hrl as ?, Hrr as ?.
  repeat split; try done; lia.
Qed.

Lemma node_pos (key : Z) (l r : Node) :
  heights_pos l -> heights_pos r ->
  heights_pos (mkNode key (1 + Z.max (height l) (height r)) l r).
Proof.
  intros Hl Hr. apply height_nonneg in Hl as ?, Hr as ?. simpl. repeat split; try done; lia.
Qed.

Lemma insert_rebalance_pos (value key : Z) (l r t' : Node) :
  heights_pos l -> heights_pos r ->
  insert_rebalance value key l r = Some t' -> heights_pos t'.
Proof.
  intros Hl Hr. pose proof (node_pos key l r Hl Hr) as Hroot.
  unfold insert_rebalance.
  repeat case_match; try done; intros Hres.
  - eauto using rightRotation_pos.
  - apply bind_Some in Hres as (l' & Hrot & Hres).
    eapply rightRotation_pos; [|exact Hres].
    apply (leftRotation_pos _ _ Hl) in Hrot.
    apply height_nonneg in Hrot as ?, Hr as ?, Hl as ?. simpl. repeat split; try done; lia.
  - eauto using leftRotation_pos.
  - apply bind_Some in Hres as (r' & Hrot & Hres).
    eapply leftRotation_pos; [|exact Hres].
    apply (rightRotation_pos _ _ Hr) in Hrot.
    apply height_nonneg in Hrot as ?, Hr as ?, Hl as ?. simpl. repeat split; try done; lia.
  - by injection Hres as <-.
Qed.

Lemma insert_pos (t t' : Node) (value : Z) :
  heights_pos t -> insert t value = Some t' -> heights_pos t'.
Proof.
  revert t'. induction t as [|key h l IHl r IHr]; simpl; intros t' Hp H.
  - injection H as <-. simpl. repeat split; lia.
  - destruct Hp as (_ & Hl & Hr).
    destruct (value <? key); [|destruct (value >? key)].
    + apply bind_Some in H as (l' & Hins & H). eauto using insert_rebalance_pos.
    + apply bind_Some in H as (r' & Hins & H). eauto using insert_rebalance_pos.
    + eauto using insert_rebalance_pos.
Qed.

Lemma remove_rebalance_total (key : Z) (l r : Node) :
  heights_pos l -> heights_pos r ->
  exists t', remove_rebalance key l r = Some t' /\ heights_pos t'.
Proof.
  intros Hl Hr. pose proof (node_pos key l r Hl Hr) as Hroot.
  apply height_nonneg in Hl as ?, Hr as ?.
  destruct (remove_double_rotation_cases l r) as [Hc|[[Hc Hbal]|[Hc Hbal]]];
    unfold remove_rebalance; rewrite Hc.
  - eauto.
  - destruct l as [|lkey lh ll lr]; [simpl in Hbal; lia|].
    eexists. split; [reflexivity|]. eapply rightRotation_pos; [exact Hroot|reflexivity].
  - destruct r as [|rkey rh rl rr]; [simpl in Hbal; lia|].
    eexists. split; [reflexivity|]. eapply leftRotation_pos; [exact Hroot|reflexivity].
Qed.

Lemma remove_finish_total (t : Node) :
  heights_pos t -> exists t', remove_finish t = Some t' /\ heights_pos t'.
Proof.
  destruct t as [|key h l r]; simpl; [eauto|].
  intros (_ & Hl & Hr). by apply remove_rebalance_total.
Qed.

Lemma detach_leftmost_total (key h lkey lh : Z) (ll lr rr : Node) :
  heights_pos (mkNode key h (mkNode lkey lh ll lr) rr) ->
  exists skey r', detach_leftmost (mkNode key h (mkNode lkey lh ll lr) rr) = Some (skey, r')
                  /\ heights_pos r'.
Proof.
  revert key h lkey lh lr rr.
  induction ll as [|llkey llh lll IH llr _]; intros key h lkey lh lr rr (Hh & Hl & Hrr).
  - eexists _, _. split; [reflexivity|]. simpl. done.
  - destruct (IH lkey lh llkey llh llr lr Hl) as (skey & l' & Hd & Hl').
    exists skey, (mkNode key h l' rr). split; [|simpl; done].
    change (detach_leftmost (mkNode key h (mkNode lkey lh (mkNode llkey llh lll llr) lr) rr))
      with ('(skey, l') ← detach_leftmost (mkNode lkey lh (mkNode llkey llh lll llr) lr);
            Some (skey, mkNode key h l' rr)).
    rewrite Hd. done.
Qed.

Lemma remove_total (t : Node) (value : Z) :
  heights_pos t -> exists t', remove t value = Some t' /\ heights_pos t'.
Proof.
  induction t as [|key h l IHl r IHr]; intros Hp.
  - exists Null. done.
  - destruct Hp as (Hh & Hl & Hr). simpl.
    destruct (value <? key); [|destruct (value >? key)].
    + destruct (IHl Hl) as (l' & -> & Hl'). simpl. by apply remove_rebalance_total.
    + destruct (IHr Hr) as (r' & -> & Hr'). simpl. by apply remove_rebalance_total.
    + destruct r as [|rkey rh rl rr]; [by apply remove_finish_total|].
      destruct l as [|lkey lh ll lr]; [by apply remove_finish_total|].
      destruct rl as [|rlkey rlh rll rlr].
      * apply remove_rebalance_total; [done|]. by destruct Hr as (_ & _ & ?).
      * destruct (detach_leftmost_total rkey rh rlkey rlh rll rlr rr Hr)
          as (skey & r' & -> & Hr').
        simpl. by apply remove_rebalance_total.
Qed.

Lemma run_pos (ops : list op) (t t' : Node) :
  heights_pos t -> run t ops = Some t' -> heights_pos t'.
Proof.
  revert t. induction ops as [|o ops IH]; simpl; intros t Hp H.
  - by injection H as <-.
  - apply bind_Some in H as (t1 & Hop & H). apply (IH t1); [|done].
    destruct o as [v|v]; simpl in Hop.
    + eauto using insert_pos.
    + destruct (remove_total t v Hp) as (t2 & Hrem & Hp2). congruence.
Qed.

(** The root of a tree built by calls from the empty tree has a height of
    at least 1, as the grid walk needs. *)
Lemma reachable_height_pos (ops : list op) (key h : Z) (l r : Node) :
  from_empty ops = Some (mkNode key h l r) -> 1 <= h.
Proof.
  intros Ht. apply (run_pos ops Null) in Ht; [|done]. by destruct Ht.
Qed.

(** From the empty tree, [remove] always returns; a sequence of calls
    can only stop at an [insert]. *)
Lemma remove_returns (ops : list op) (t : Node) (value : Z) :
  from_empty ops = Some t -> is_Some (remove t value).
Proof.
  intros Ht. destruct (remove_total t value) as (t' & -> & _); [|done].
  by apply (run_pos ops Null).
Qed.

End ValidTrees.

(** ** The width of a cell *)

Section CellWidth.

Lemma max_list_append (l1 l2 : list nat) :
  max_list (l1 ++ l2) = Nat.max (max_list l1) (max_list l2).
Proof. induction l1 as [|x l1 IH]; simpl; [done|]. rewrite IH. unfold id. lia. Qed.

Lemma widen_row (row : list cell_display) (w : Z) :
  0 <= w ->
  fold_left widen row w
  = Z.max w (Z.of_nat (max_list (map (fun cell => length (value cell))
                                     (List.filter present row)))).
Proof.
  revert w. induction row as [|cell row IH]; intros w Hw; simpl.
  - lia.
  - unfold widen at 2.
    destruct (present cell); simpl.
    + destruct (w <? Z.of_nat (length (value cell))) eqn:E; rewrite IH; lia.
    + rewrite IH; lia.
Qed.

Lemma widen_grid (grid : DisplayGrid) (w : Z) :
  0 <= w ->
  fold_left (fun w row => fold_left widen row w) grid w
  = Z.max w (Z.of_nat (max_list (present_lengths grid))).
Proof.
  unfold present_lengths.
  revert w. induction grid as [|row grid IH]; intros w Hw; simpl.
  - lia.
  - rewrite IH by (rewrite widen_row; lia). rewrite widen_row by done.
    rewrite List.filter_app, map_app, max_list_append. lia.
Qed.

Lemma longest_value_max (grid : DisplayGrid) :
  longest_value grid = Z.max 3 (Z.of_nat (max_list (present_lengths grid))).
Proof. apply widen_grid. lia. Qed.

End CellWidth.

(** C8. The cell width is the largest length of the value of a present
    cell, or 3 when that is smaller, made odd by adding one when it is
    even.  The present cells of the grid of a tree hold the stringified
    keys ([to_cell]). *)
Theorem cell_width_longest_odd (grid : DisplayGrid) :
  let m := Z.max 3 (Z.of_nat (max_list (present_lengths grid))) in
  cell_width grid = (if Z.even m then m + 1 else m) /\
  Z.odd (cell_width grid) = true.
Proof.
  intros m. unfold cell_width. rewrite longest_value_max. fold m. cbv zeta.
  assert (Hrem : (Z.rem m 2 =? 0) = Z.even m).
  { rewrite Z.rem_mod_nonneg by lia. rewrite Zeven_mod. done. }
  rewrite Hrem. split; [done|].
  destruct (Z.even m) eqn:E.
  - rewrite Z.odd_add. rewrite <- Z.negb_even, E. done.
  - rewrite <- Z.negb_even, E. done.
Qed.

(** ** The walk of [generateDisplayGrid] *)

Section Walk.

Lemma level_length (t : Node) (d : nat) : length (level t d) = (2 ^ d)%nat.
Proof.
  revert t. induction d as [|d IH]; intros t; simpl; [done|].
  rewrite length_app, !IH. lia.
Qed.

Lemma level_lookup (t : Node) (d i : nat) :
  (i < 2 ^ d)%nat -> level t d !! i = Some (slot t d i).
Proof.
  revert t i. induction d as [|d IH]; intros t i Hi; simpl in *.
  - by replace i with O by lia.
  - destruct (i <? 2 ^ d)%nat eqn:E.
    + apply Nat.ltb_lt in E. rewrite lookup_app_l by (rewrite level_length; lia).
      by apply IH.
    + apply Nat.ltb_ge in E. rewrite lookup_app_r by (rewrite level_length; lia).
      rewrite level_length. apply IH. lia.
Qed.

Lemma add_levels_length (pn : Node) (d : nat) (rws : list (list Node)) :
  length (add_levels pn d rws) = length rws.
Proof. unfold add_levels. by rewrite length_imap. Qed.

Lemma add_levels_lookup (pn : Node) (d j : nat) (rws : list (list Node)) :
  add_levels pn d rws !! j
  = (fun row => if decide (d <= j)%nat then row ++ level pn (j - d) else row) <$> rws !! j.
Proof. unfold add_levels. by rewrite list_lookup_imap. Qed.

(** Pushing the node on its own row, then walking both children, adds
    every level of the subtree. *)
Lemma add_levels_children (pn : Node) (d : nat) (rws : list (list Node)) (row : list Node) :
  rws !! d = Some row ->
  add_levels (right_child pn) (S d)
    (add_levels (left_child pn) (S d) (<[d := row ++ [pn]]> rws))
  = add_levels pn d rws.
Proof.
  intros Hrow. apply list_eq. intros j.
  rewrite !add_levels_lookup.
  destruct (decide (j = d)) as [->|Hne].
  - rewrite list_lookup_insert_eq by (by eapply lookup_lt_Some).
    rewrite Hrow. simpl.
    rewrite !decide_False by lia. rewrite decide_True by lia.
    by rewrite Nat.sub_diag.
  - rewrite list_lookup_insert_ne by done.
    destruct (rws !! j) as [rowj|]; simpl; [|done].
    destruct (decide (S d <= j)%nat).
    + rewrite decide_True by lia.
      replace (j - d)%nat with (S (j - S d)) by lia.
      simpl. by rewrite <- app_assoc.
    + by rewrite decide_False by lia.
Qed.

Lemma add_levels_last (pn : Node) (d : nat) (rws : list (list Node)) (row : list Node) :
  length rws = S d -> rws !! d = Some row ->
  <[d := row ++ [pn]]> rws = add_levels pn d rws.
Proof.
  intros Hlen Hrow. apply list_eq. intros j.
  rewrite add_levels_lookup.
  destruct (decide (j = d)) as [->|Hne].
  - rewrite list_lookup_insert_eq by lia. rewrite Hrow. simpl.
    rewrite decide_True by lia. by rewrite Nat.sub_diag.
  - rewrite list_lookup_insert_ne by done.
    destruct (rws !! j) as [rowj|] eqn:E; simpl; [|done].
    apply lookup_lt_Some in E. by rewrite decide_False by lia.
Qed.

Lemma walk_loop_S (fuel : nat) (max_depth : Z) (s : walk) :
  walk_loop (S fuel) max_depth s
  = match walk_step max_depth s with
    | Break rws => Some rws
    | Continue s' => walk_loop fuel max_depth s'
    | Fault => None
    end.
Proof. reflexivity. Qed.

Lemma even_below_insert (d : nat) (rws : list (list Node)) (row : list Node) :
  even_below d rws -> even_below d (<[d := row]> rws).
Proof.
  intros He j rowj Hj. rewrite list_lookup_insert_ne by lia. by apply He.
Qed.

Lemma pow2_even (n : nat) : (0 < n)%nat -> (2 ^ n mod 2 = 0)%nat.
Proof.
  destruct n as [|n]; [lia|]. intros _.
  rewrite Nat.pow_succ_r'. rewrite Nat.mul_comm. apply Nat.Div0.mod_mul.
Qed.

Lemma even_below_add_levels (pn : Node) (d : nat) (rws : list (list Node)) :
  even_below d rws -> even_below d (add_levels pn d rws).
Proof.
  intros He j rowj Hj. rewrite add_levels_lookup.
  intros Heq. apply fmap_Some in Heq as (row & E & ->).
  rewrite decide_True by lia.
  rewrite length_app, level_length.
  rewrite Nat.Div0.add_mod, (He j row Hj E), pow2_even by lia. done.
Qed.

Lemma even_below_weaken (d d' : nat) (rws : list (list Node)) :
  (d <= d')%nat -> even_below d rws -> even_below d' rws.
Proof. intros Hle He j row Hj. apply He. lia. Qed.

(** The passes of the loop, one lemma for each way through its body. *)

Lemma step_bottom (max_depth : Z) (c : Node) (d : nat) (stk : list Node)
    (rws : list (list Node)) (row : list Node) :
  Z.of_nat d = max_depth - 1 -> rws !! d = Some row ->
  walk_step max_depth (mk_walk c d stk rws)
  = if (d =? 0)%nat then Break (<[d := row ++ [c]]> rws)
    else Continue (mk_walk c (d - 1) stk (<[d := row ++ [c]]> rws)).
Proof.
  intros Hd Hrow. unfold walk_step, push_row. cbn [depth current traversal_stack rows].
  rewrite (proj2 (Z.eqb_eq _ _) Hd), Hrow. reflexivity.
Qed.

Lemma step_first_visit (max_depth : Z) (c : Node) (d : nat) (stk : list Node)
    (rws : list (list Node)) (row : list Node) :
  Z.of_nat d <> max_depth - 1 -> length stk = d -> rws !! d = Some row ->
  walk_step max_depth (mk_walk c d stk rws)
  = Continue (mk_walk (left_child c) (d + 1) (c :: stk) (<[d := row ++ [c]]> rws)).
Proof.
  intros Hd Hstk Hrow. unfold walk_step, push_row. cbn [depth current traversal_stack rows].
  rewrite (proj2 (Z.eqb_neq _ _) Hd), (proj2 (Nat.eqb_eq _ _) Hstk), Hrow. reflexivity.
Qed.

Lemma step_go_right (max_depth : Z) (c back : Node) (d : nat) (stk : list Node)
    (rws : list (list Node)) (next : list Node) :
  Z.of_nat d <> max_depth - 1 -> length (back :: stk) <> d ->
  rws !! (d + 1)%nat = Some next -> (length next mod 2 = 1)%nat ->
  walk_step max_depth (mk_walk c d (back :: stk) rws)
  = Continue (mk_walk (right_child back) (d + 1) (back :: stk) rws).
Proof.
  intros Hd Hstk Hnext Hodd. unfold walk_step. cbn [depth current traversal_stack rows].
  rewrite (proj2 (Z.eqb_neq _ _) Hd), (proj2 (Nat.eqb_neq _ _) Hstk), Hnext.
  rewrite (proj2 (Nat.eqb_eq _ _) Hodd). reflexivity.
Qed.

Lemma step_leave (max_depth : Z) (c : Node) (d : nat) (stk : list Node)
    (rws : list (list Node)) (next : list Node) :
  Z.of_nat d <> max_depth - 1 -> length stk <> d ->
  rws !! (d + 1)%nat = Some next -> (length next mod 2 = 0)%nat ->
  walk_step max_depth (mk_walk c d stk rws)
  = if (d =? 0)%nat then Break rws
    else match stk with
         | _ :: (back :: _) as popped => Continue (mk_walk back (d - 1) popped rws)
         | _ => Fault
         end.
Proof.
  intros Hd Hstk Hnext Heven. unfold walk_step. cbn [depth current traversal_stack rows].
  rewrite (proj2 (Z.eqb_neq _ _) Hd), (proj2 (Nat.eqb_neq _ _) Hstk), Hnext.
  assert (Hne : (length next mod 2 =? 1)%nat = false) by (apply Nat.eqb_neq; lia).
  rewrite Hne. reflexivity.
Qed.

(** After its first visit, a node above the last level has its left
    subtree walked, then its right subtree; the rows are then those of
    [add_levels], and the loop is at its "time to leave" test. *)
Lemma walk_children (max_depth m : nat)
    (IH : forall (pn : Node) (d : nat) (stk : list Node) (rws : list (list Node)),
        (1 <= d)%nat -> (d + m + 1 = max_depth)%nat ->
        length stk = d -> length rws = max_depth -> even_below d rws ->
        exists c, forall fuel,
          walk_loop (walk_steps m + fuel) (Z.of_nat max_depth) (mk_walk pn d stk rws)
          = walk_loop fuel (Z.of_nat max_depth)
                      (mk_walk c (d - 1) stk (add_levels pn d rws)))
    (pn : Node) (d : nat) (stk : list Node) (rws : list (list Node)) :
  (d + S m + 1 = max_depth)%nat ->
  length stk = d -> length rws = max_depth -> even_below d rws ->
  exists c, forall fuel,
    walk_loop (2 + 2 * walk_steps m + fuel) (Z.of_nat max_depth) (mk_walk pn d stk rws)
    = walk_loop fuel (Z.of_nat max_depth) (mk_walk c d (pn :: stk) (add_levels pn d rws)).
Proof.
  intros Hm Hstk Hlen Heven.
  destruct (lookup_lt_is_Some_2 rws d) as [row Hrow]; [lia|].
  set (rws1 := <[d := row ++ [pn]]> rws).
  assert (Hlen1 : length rws1 = max_depth) by (unfold rws1; by rewrite length_insert).
  assert (Heven1 : even_below (S d) rws1).
  { unfold rws1. eapply even_below_weaken; [|by apply even_below_insert]. lia. }
  destruct (IH (left_child pn) (S d) (pn :: stk) rws1) as [c1 Hleft];
    [lia | lia | simpl; lia | done | done |].
  set (rws2 := add_levels (left_child pn) (S d) rws1) in *.
  assert (Hlen2 : length rws2 = max_depth) by (unfold rws2; by rewrite add_levels_length).
  assert (Heven2 : even_below (S d) rws2) by (by apply even_below_add_levels).
  destruct (IH (right_child pn) (S d) (pn :: stk) rws2) as [c2 Hright];
    [lia | lia | simpl; lia | done | done |].
  assert (Hall : add_levels (right_child pn) (S d) rws2 = add_levels pn d rws)
    by (by apply add_levels_children).
  rewrite Hall in Hright. clear Hall.
  (* the row below, once the left subtree is in, has an odd length *)
  destruct (lookup_lt_is_Some_2 rws (d + 1)) as [row1 Hrow1]; [lia|].
  assert (Hnext : rws2 !! (d + 1)%nat = Some (row1 ++ level (left_child pn) 0)).
  { unfold rws2. rewrite add_levels_lookup. unfold rws1.
    rewrite list_lookup_insert_ne by lia. rewrite Hrow1. simpl.
    rewrite decide_True by lia. by replace (d + 1 - S d)%nat with O by lia. }
  assert (Hodd : (length (row1 ++ level (left_child pn) 0) mod 2 = 1)%nat).
  { rewrite length_app. simpl length.
    rewrite Nat.Div0.add_mod, (Heven (d + 1)%nat row1) by (done || lia). done. }
  exists c2. intros fuel.
  replace (2 + 2 * walk_steps m + fuel)%nat
    with (S (walk_steps m + S (walk_steps m + fuel))) by lia.
  rewrite walk_loop_S, (step_first_visit _ _ _ _ _ row) by (done || lia).
  replace (d + 1)%nat with (S d) by lia.
  rewrite Hleft. replace (S d - 1)%nat with d by lia.
  rewrite walk_loop_S, (step_go_right _ _ _ _ _ _ _) by (done || simpl; lia).
  replace (d + 1)%nat with (S d) by lia.
  rewrite Hright. replace (S d - 1)%nat with d by lia. done.
Qed.

Lemma walk_subtree (max_depth m : nat) :
  forall (pn : Node) (d : nat) (stk : list Node) (rws : list (list Node)),
    (1 <= d)%nat -> (d + m + 1 = max_depth)%nat ->
    length stk = d -> length rws = max_depth -> even_below d rws ->
    exists c, forall fuel,
      walk_loop (walk_steps m + fuel) (Z.of_nat max_depth) (mk_walk pn d stk rws)
      = walk_loop fuel (Z.of_nat max_depth) (mk_walk c (d - 1) stk (add_levels pn d rws)).
Proof.
  induction m as [|m IH]; intros pn d stk rws Hd Hm Hstk Hlen Heven.
  - destruct (lookup_lt_is_Some_2 rws d) as [row Hrow]; [lia|].
    exists pn. intros fuel. change (walk_steps 0 + fuel)%nat with (S fuel).
    rewrite walk_loop_S, (step_bottom _ _ _ _ _ row) by (done || lia).
    destruct (Nat.eqb_spec d 0) as [?|_]; [lia|].
    rewrite (add_levels_last pn d rws row) by (done || lia). done.
  - destruct (walk_children max_depth m IH pn d stk rws) as [c Hc]; try done.
    destruct stk as [|back stk]; [simpl in Hstk; lia|].
    exists back. intros fuel.
    replace (walk_steps (S m) + fuel)%nat with (2 + 2 * walk_steps m + S fuel)%nat
      by (simpl; lia).
    rewrite Hc.
    destruct (lookup_lt_is_Some_2 (add_levels pn d rws) (d + 1)) as [next Hnext];
      [rewrite add_levels_length; lia|].
    rewrite walk_loop_S, (step_leave _ _ _ _ _ next); try done; try lia.
    + destruct (Nat.eqb_spec d 0) as [?|_]; [lia|]. done.
    + simpl. simpl in Hstk. lia.
    + eapply (even_below_add_levels pn d rws Heven); [|done]. lia.
Qed.

(** The whole loop, from the root: every row [j] ends as level [j] of the
    tree. *)
Lemma walk_root (max_depth : nat) (root : Node) (fuel : nat) :
  (1 <= max_depth)%nat ->
  walk_loop (walk_steps (max_depth - 1) + fuel) (Z.of_nat max_depth)
            (mk_walk root 0 [] (replicate max_depth []))
  = Some (add_levels root 0 (replicate max_depth [])).
Proof.
  intros Hmax. set (rws := replicate max_depth []).
  assert (Hlen : length rws = max_depth) by (unfold rws; by rewrite length_replicate).
  assert (Heven : even_below 0 rws).
  { intros j row _ Hj. unfold rws in Hj. apply lookup_replicate in Hj as [-> _]. done. }
  destruct (lookup_lt_is_Some_2 rws 0) as [row Hrow]; [lia|].
  destruct max_depth as [|[|m]]; [lia| |].
  - change (walk_steps (1 - 1) + fuel)%nat with (S fuel).
    rewrite walk_loop_S, (step_bottom _ _ _ _ _ row) by (done || lia).
    simpl Nat.eqb. cbv iota.
    rewrite (add_levels_last root 0 rws row) by (done || lia). done.
  - destruct (walk_children (S (S m)) m (walk_subtree (S (S m)) m) root 0%nat [] rws)
      as [c Hc]; try done; try lia.
    replace (walk_steps (S (S m) - 1) + fuel)%nat
      with (2 + 2 * walk_steps m + S fuel)%nat by (simpl; lia).
    rewrite Hc.
    destruct (lookup_lt_is_Some_2 (add_levels root 0 rws) (0 + 1)) as [next Hnext];
      [rewrite add_levels_length; lia|].
    rewrite walk_loop_S, (step_leave _ _ _ _ _ next); try done; try lia.
    eapply (even_below_add_levels root 0%nat rws Heven); [|done]. lia.
Qed.

Lemma walk_steps_pow (m : nat) : (walk_steps m + 3 = 2 ^ (m + 2))%nat.
Proof.
  induction m as [|m IH]; [done|].
  replace (S m + 2)%nat with (S (m + 2)) by lia.
  rewrite Nat.pow_succ_r'. simpl walk_steps. lia.
Qed.

Lemma add_levels_root_lookup (root : Node) (max_depth d : nat) :
  (d < max_depth)%nat ->
  add_levels root 0 (replicate max_depth []) !! d = Some (level root d).
Proof.
  intros Hd. rewrite add_levels_lookup, lookup_replicate_2 by done. simpl.
  by rewrite Nat.sub_0_r.
Qed.

End Walk.

Lemma list_lookup_map {A B : Type} (f : A -> B) (l : list A) (i : nat) :
  map f l !! i = f <$> l !! i.
Proof. apply (list_lookup_fmap f l i). Qed.

Lemma generateDisplayGrid_rows (key h : Z) (l r : Node) (fuel : nat) :
  1 <= h -> (2 ^ (Z.to_nat h + 1) <= fuel)%nat ->
  generateDisplayGrid fuel (mkNode key h l r)
  = Some (map (map to_cell)
              (add_levels (mkNode key h l r) 0 (replicate (Z.to_nat h) []))).
Proof.
  intros Hh Hfuel. unfold generateDisplayGrid.
  pose proof (walk_steps_pow (Z.to_nat h - 1)) as Hsteps.
  replace (Z.to_nat h - 1 + 2)%nat with (Z.to_nat h + 1)%nat in Hsteps by lia.
  replace fuel with (walk_steps (Z.to_nat h - 1) + (fuel - walk_steps (Z.to_nat h - 1)))%nat
    by lia.
  pose proof (walk_root (Z.to_nat h) (mkNode key h l r)
                (fuel - walk_steps (Z.to_nat h - 1))) as Hwalk.
  rewrite Z2Nat.id in Hwalk by lia.
  rewrite Hwalk by lia. done.
Qed.

(** C7. For a tree whose root has height [h >= 1] (the cached field, as
    [height()] returns it), and with enough passes allowed to the loop,
    the grid has [h] rows, row [d] has [2^d] cells, and cell [i] of row
    [d] is the present cell with the stringified key of the node in slot
    [i] of level [d] when there is one, and the absent cell when there
    is none, which includes the slots below an absent node. *)
Theorem display_grid_slots (key h : Z) (l r : Node) (fuel : nat) :
  let root := mkNode key h l r in
  1 <= h -> (2 ^ (Z.to_nat h + 1) <= fuel)%nat ->
  exists grid,
    generateDisplayGrid fuel root = Some grid /\
    length grid = Z.to_nat h /\
    forall d, (d < Z.to_nat h)%nat ->
      exists row,
        grid !! d = Some row /\ length row = (2 ^ d)%nat /\
        forall i, (i < 2 ^ d)%nat ->
          row !! i = Some (match slot root d i with
                           | Null => absent_cell
                           | mkNode k _ _ _ => present_cell (to_string k)
                           end).
Proof.
  intros root Hh Hfuel. eexists. split; [by apply generateDisplayGrid_rows|].
  split.
  - by rewrite length_map, add_levels_length, length_replicate.
  - intros d Hd. exists (map to_cell (level root d)). split; [|split].
    + rewrite list_lookup_map, add_levels_root_lookup by done. done.
    + by rewrite length_map, level_length.
    + intros i Hi. rewrite list_lookup_map, level_lookup by done. done.
Qed.

Lemma display_grid_slots_witness :
  let root := mkNode 2 3 (mkNode 1 1 Null Null) (mkNode 3 2 Null (mkNode 4 1 Null Null)) in
  exists grid,
    generateDisplayGrid 16 root = Some grid /\
    length grid = Z.to_nat 3 /\
    forall d, (d < Z.to_nat 3)%nat ->
      exists row,
        grid !! d = Some row /\ length row = (2 ^ d)%nat /\
        forall i, (i < 2 ^ d)%nat ->
          row !! i = Some (match slot root d i with
                           | Null => absent_cell
                           | mkNode k _ _ _ => present_cell (to_string k)
                           end).
Proof.
  apply (display_grid_slots 2 3 (mkNode 1 1 Null Null)
           (mkNode 3 2 Null (mkNode 4 1 Null Null)) 16).
  - lia.
  - simpl. lia.
Defined.

(** ** Trimming the rows *)

Section Trim.

Lemma leading_spaces_nil : leading_spaces [] = 0%nat.
Proof. reflexivity. Qed.

Lemma leading_spaces_space (row : str) :
  leading_spaces (" "%char :: row) = S (leading_spaces row).
Proof.
  unfold leading_spaces. simpl.
  destruct (find_first_not_of " " row); reflexivity.
Qed.

Lemma leading_spaces_other (c : ascii) (row : str) :
  c <> " "%char -> leading_spaces (c :: row) = 0%nat.
Proof.
  intros Hc. unfold leading_spaces. simpl.
  destruct (Ascii.eqb_spec c " "); [done|reflexivity].
Qed.

Lemma leading_spaces_le_length (row : str) : (leading_spaces row <= length row)%nat.
Proof.
  induction row as [|c row IH]; [done|].
  destruct (ascii_dec c " ") as [->|Hc].
  - rewrite leading_spaces_space. simpl. lia.
  - rewrite leading_spaces_other by done. lia.
Qed.

Lemma leading_spaces_drop (m : nat) (row : str) :
  (m <= leading_spaces row)%nat ->
  leading_spaces (drop m row) = (leading_spaces row - m)%nat.
Proof.
  revert m. induction row as [|c row IH]; intros m Hm.
  - by rewrite drop_nil.
  - destruct m as [|m]; [by rewrite drop_0, Nat.sub_0_r|].
    destruct (ascii_dec c " ") as [->|Hc].
    + rewrite leading_spaces_space in *. simpl. apply IH. lia.
    + rewrite leading_spaces_other in Hm by done. lia.
Qed.

Lemma leading_spaces_replicate (n : nat) (c : ascii) (v w : str) :
  c <> " "%char -> leading_spaces (replicate n " "%char ++ (c :: v) ++ w) = n.
Proof.
  intros Hc. induction n as [|n IH].
  - by apply leading_spaces_other.
  - change (replicate (S n) " "%char ++ (c :: v) ++ w)
      with (" "%char :: (replicate n " "%char ++ (c :: v) ++ w)).
    by rewrite leading_spaces_space, IH.
Qed.

Lemma drop_replicate_app {A : Type} (m n : nat) (x : A) (l : list A) :
  (m <= n)%nat -> drop m (replicate n x ++ l) = replicate (n - m) x ++ l.
Proof.
  intros Hm. rewrite drop_app_le by (rewrite length_replicate; lia).
  by rewrite drop_replicate.
Qed.

(** The scan returns early exactly when some row does not begin with a
    space; otherwise it returns the smallest count of leading spaces, or
    the initial value if that is smaller. *)
Lemma trim_scan_None (rws : list str) (m0 : nat) :
  trim_scan rws m0 = None -> Exists (fun row => leading_spaces row = 0%nat) rws.
Proof.
  revert m0. induction rws as [|row rws IH]; intros m0; simpl; [done|].
  fold (leading_spaces row).
  destruct (Nat.eqb_spec (leading_spaces row) 0) as [E|_].
  - intros _. by left.
  - intros H. right. eauto.
Qed.

Lemma trim_scan_Some (rws : list str) (m0 m : nat) :
  trim_scan rws m0 = Some m ->
  (m <= m0)%nat /\
  Forall (fun row => m <= leading_spaces row)%nat rws /\
  (m = m0 \/ Exists (fun row => leading_spaces row = m) rws).
Proof.
  revert m0. induction rws as [|row rws IH]; intros m0; simpl.
  - intros [= ->]. auto.
  - fold (leading_spaces row).
    destruct (Nat.eqb_spec (leading_spaces row) 0) as [|_]; [done|].
    intros H. apply IH in H as (Hle & Hall & Hex).
    destruct (Nat.ltb_spec (leading_spaces row) m0).
    + split; [lia|]. split; [constructor; [lia|done]|].
      right. destruct Hex as [->|Hex]; [by left | by right].
    + split; [lia|]. split; [constructor; [lia|done]|].
      destruct Hex as [->|Hex]; [by left | right; by right].
Qed.

(** [trimRowsLeft] removes the same number [m] of characters from every
    row; every row begins with at least [m] spaces, and some row with
    exactly [m]. *)
Lemma trimRowsLeft_common (front : str) (rest : list str) :
  exists m,
    trimRowsLeft (front :: rest) = map (drop m) (front :: rest) /\
    Forall (fun row => m <= leading_spaces row)%nat (front :: rest) /\
    Exists (fun row => leading_spaces row = m) (front :: rest).
Proof.
  unfold trimRowsLeft.
  destruct (trim_scan (front :: rest) (length front)) as [m|] eqn:E.
  - exists m. split; [done|].
    apply trim_scan_Some in E as (Hle & Hall & Hex). split; [done|].
    destruct Hex as [->|Hex]; [|done].
    left. apply Nat.le_antisymm; [apply leading_spaces_le_length|].
    by inversion Hall.
  - exists 0%nat. split; [|split].
    + rewrite <- (map_id (front :: rest)) at 1. apply map_ext. intros row.
      by rewrite drop_0.
    + apply Forall_forall. intros; lia.
    + by apply trim_scan_None in E.
Qed.

Lemma trimmed_row_without_space (m : nat) (rws : list str) :
  Forall (fun row => m <= leading_spaces row)%nat rws ->
  Exists (fun row => leading_spaces row = m) rws ->
  Exists (fun row => leading_spaces row = 0%nat) (map (drop m) rws).
Proof.
  intros Hall Hex. induction Hex as [row rws Hrow|row rws Hex IH]; simpl.
  - left. rewrite leading_spaces_drop by lia. lia.
  - right. apply IH. by inversion Hall.
Qed.

End Trim.

(** ** Formatting the grid *)

Section Format.

Lemma spaces_Some (n : Z) : 0 <= n -> spaces n = Some (replicate (Z.to_nat n) " "%char).
Proof. intros Hn. unfold spaces. by rewrite (proj2 (Z.ltb_ge n 0)). Qed.

Lemma cell_width_ge_3 (grid : DisplayGrid) : 3 <= cell_width grid.
Proof.
  unfold cell_width. rewrite longest_value_max.
  destruct (Z.rem _ 2 =? 0); lia.
Qed.

Lemma cell_width_fits (grid : DisplayGrid) (d : nat) (row : list cell_display) :
  grid !! d = Some row -> fits (cell_width grid) row.
Proof.
  intros Hrow. apply Forall_forall. intros cell Hcell Hpresent.
  assert (Hin : length (value cell) ∈ present_lengths grid).
  { unfold present_lengths. apply list_elem_of_In.
    apply (in_map (fun cell => length (value cell)) _ cell).
    apply filter_In. split; [|done].
    apply in_concat. exists row. split; apply list_elem_of_In; [|done].
    by eapply list_elem_of_lookup_2. }
  apply max_list_elem_of_le in Hin.
  unfold cell_width. rewrite longest_value_max.
  destruct (Z.rem _ 2 =? 0); lia.
Qed.

Variable grid : DisplayGrid.
Variable cw : Z.
Hypothesis cw_ge_3 : 3 <= cw.
Hypothesis grid_rows : forall d row, grid !! d = Some row -> length row = (2 ^ d)%nat.
Hypothesis grid_fits : forall d row, grid !! d = Some row -> fits cw row.

Lemma format_cell_is_Some (c : Z) (cell : cell_display) :
  (present cell = true -> Z.of_nat (length (value cell)) <= cw) ->
  is_Some (format_cell cw c cell).
Proof using cw_ge_3.
  intros Hfit. unfold format_cell.
  destruct (present cell); [|rewrite spaces_Some by lia; eauto].
  specialize (Hfit eq_refl).
  set (n := cw - Z.of_nat (length (value cell))).
  assert (0 <= n) by (unfold n; lia).
  assert (0 <= Z.quot n 2 <= n)
    by (rewrite Z.quot_div_nonneg by lia; Z.div_mod_to_equations; lia).
  destruct (Z.rem c 2 =? 0); rewrite !spaces_Some by lia; simpl; eauto.
Qed.

Lemma format_row_is_Some (left_pad n : Z) (row : list cell_display) :
  0 <= left_pad -> Z.of_nat (length row) = n -> fits cw row ->
  is_Some (format_row cw left_pad n row).
Proof using cw_ge_3.
  intros Hpad Hlen Hfit. unfold format_row.
  match goal with |- is_Some (mapM ?f ?l ≫= _) =>
    destruct (mapM_is_Some_2 f l) as [pieces ->]; [|simpl; eauto] end.
  apply Forall_forall. intros c Hc. apply elem_of_seqZ in Hc. simpl.
  rewrite spaces_Some by (destruct (c =? 0); lia). simpl.
  destruct (lookup_lt_is_Some_2 row (Z.to_nat c)) as [cell Hcell]; [lia|].
  rewrite Hcell. simpl.
  destruct (format_cell_is_Some c cell) as [txt ->]; [|simpl; eauto].
  eapply (proj1 (Forall_forall _ _) Hfit). by eapply list_elem_of_lookup_2.
Qed.

Lemma connector_row_is_Some (left_space right_space n : Z) (row : list cell_display) :
  0 <= left_space -> 0 <= right_space -> Z.of_nat (length row) = n ->
  is_Some (connector_row left_space right_space n row).
Proof.
  intros Hl Hr Hlen. unfold connector_row.
  match goal with |- is_Some (mapM ?f ?l ≫= _) =>
    destruct (mapM_is_Some_2 f l) as [pieces ->]; [|simpl; eauto] end.
  apply Forall_forall. intros c Hc. apply elem_of_seqZ in Hc. simpl.
  destruct (lookup_lt_is_Some_2 row (Z.to_nat c)) as [cell Hcell]; [lia|].
  rewrite Hcell. simpl.
  destruct (Z.rem c 2 =? 0).
  - rewrite !spaces_Some by (try destruct (c =? 0); lia). simpl. eauto.
  - rewrite !spaces_Some by lia. simpl. eauto.
Qed.

Lemma connector_rows_is_Some (space n : Z) (row : list cell_display) :
  Z.of_nat (length row) = n -> is_Some (connector_rows space n row).
Proof.
  intros Hlen. unfold connector_rows. apply mapM_is_Some_2.
  apply Forall_forall. intros i Hi. apply elem_of_seqZ in Hi. simpl.
  apply connector_row_is_Some; lia.
Qed.

Lemma format_levels_S (todo : nat) (row_count r row_elem_count left_pad : Z)
    (result : list str) :
  format_levels (S todo) grid cw row_count r row_elem_count left_pad result
  = (gridRow ← grid !! Z.to_nat (row_count - r - 1);
     let space := Z.quot (Z.shiftl 1 r * (cw + 1)) 2 - 1 in
     row ← format_row cw left_pad row_elem_count gridRow;
     if row_elem_count =? 1 then Some (result ++ [row])
     else
       slashes ← connector_rows space row_elem_count gridRow;
       format_levels todo grid cw row_count (r + 1) (Z.quot row_elem_count 2)
                     (left_pad + space + 1) ((result ++ [row]) ++ slashes)).
Proof. reflexivity. Qed.

(** The loop over the levels succeeds on a grid of full rows, and the
    last row it pushes is the row of values of row 0 of the grid. *)
Lemma format_levels_root_last (todo : nat) :
  forall (r row_elem_count left_pad : Z) (result : list str),
    (1 <= todo <= length grid)%nat ->
    r = Z.of_nat (length grid) - Z.of_nat todo ->
    row_elem_count = 2 ^ (Z.of_nat todo - 1) ->
    0 <= left_pad ->
    exists (res : list str) (pad : Z) (row0 : list cell_display) (root_line : str),
      format_levels todo grid cw (Z.of_nat (length grid)) r row_elem_count left_pad result
        = Some (res ++ [root_line]) /\
      grid !! 0%nat = Some row0 /\ 0 <= pad /\
      format_row cw pad 1 row0 = Some root_line.
Proof using cw_ge_3 grid_rows grid_fits.
  induction todo as [|todo IH]; intros r row_elem_count left_pad result Htodo Hr Hn Hpad;
    [lia|].
  rewrite format_levels_S.
  replace (Z.to_nat (Z.of_nat (length grid) - r - 1)) with todo by lia.
  destruct (lookup_lt_is_Some_2 grid todo) as [gridRow HgridRow]; [lia|].
  rewrite HgridRow. cbn [mbind option_bind].
  assert (Hlen : Z.of_nat (length gridRow) = row_elem_count).
  { rewrite (grid_rows _ _ HgridRow), Nat2Z.inj_pow, Hn. f_equal. lia. }
  destruct (format_row_is_Some left_pad row_elem_count gridRow) as [row Hrow];
    [done | done | by eapply grid_fits |].
  rewrite Hrow. cbn [mbind option_bind].
  destruct (Z.eqb_spec row_elem_count 1) as [Hone|Hmore].
  - assert (todo = 0%nat) as ->.
    { destruct todo as [|todo']; [done|].
      assert (2 ^ 1 <= 2 ^ (Z.of_nat (S (S todo')) - 1)) by (apply Z.pow_le_mono_r; lia).
      lia. }
    exists result, left_pad, gridRow, row. subst row_elem_count. rewrite <- Hone. done.
  - assert (1 <= todo)%nat.
    { destruct todo as [|todo']; [|lia]. exfalso. apply Hmore. rewrite Hn. done. }
    set (space := Z.quot (Z.shiftl 1 r * (cw + 1)) 2 - 1).
    assert (Hspace : -1 <= space).
    { unfold space. assert (0 <= Z.shiftl 1 r) by (apply Z.shiftl_nonneg; lia).
      assert (0 <= Z.quot (Z.shiftl 1 r * (cw + 1)) 2) by (apply Z.quot_pos; nia).
      lia. }
    destruct (connector_rows_is_Some space row_elem_count gridRow Hlen) as [slashes ->].
    cbn [mbind option_bind].
    apply IH; try lia.
    rewrite Hn. replace (Z.of_nat (S todo) - 1) with (Z.succ (Z.of_nat todo - 1)) by lia.
    rewrite Z.pow_succ_r by lia.
    rewrite Z.mul_comm, Z.quot_mul by lia. done.
Qed.

End Format.

Lemma formatGrid_root_first (grid : DisplayGrid) :
  (1 <= length grid <= 31)%nat ->
  (forall d row, grid !! d = Some row -> length row = (2 ^ d)%nat) ->
  exists (res : list str) (pad : Z) (row0 : list cell_display) (root_line : str),
    formatGrid grid = Some (root_line :: res) /\
    grid !! 0%nat = Some row0 /\ 0 <= pad /\
    format_row (cell_width grid) pad 1 row0 = Some root_line.
Proof.
  intros Hlen Hrows. unfold formatGrid, int_shl_one.
  destruct (Z.leb_spec 0 (Z.of_nat (length grid) - 1)); [|lia].
  destruct (Z.ltb_spec (Z.of_nat (length grid) - 1) 31); [|lia].
  cbn [andb mbind option_bind].
  destruct (format_levels_root_last grid (cell_width grid) (cell_width_ge_3 grid) Hrows
              (cell_width_fits grid) (length grid) 0
              (Z.shiftl 1 (Z.of_nat (length grid) - 1)) 0 [])
    as (res & pad & row0 & root_line & Hlevels & Hrow0 & Hpad & Hline);
    [lia | lia | by rewrite Z.shiftl_1_l | lia |].
  rewrite Hlevels. cbn [mbind option_bind].
  rewrite reverse_snoc. eauto 10.
Qed.

(** ** The rows [display] writes *)

Lemma spaces_inv (n : Z) (s : str) :
  spaces n = Some s -> s = replicate (Z.to_nat n) " "%char.
Proof. unfold spaces. destruct (n <? 0); [done|]. by intros [= <-]. Qed.

(** The row of values of the root: its value between two runs of
    spaces. *)
Lemma format_row_root (cw pad : Z) (v root_line : str) :
  format_row cw pad 1 [present_cell v] = Some root_line ->
  exists a b : nat, root_line = replicate a " "%char ++ v ++ replicate b " "%char.
Proof.
  unfold format_row. change (seqZ 0 1) with [0].
  cbn [mapM mbind option_bind]. change (0 =? 0) with true. cbv iota.
  change ([present_cell v] !! Z.to_nat 0) with (Some (present_cell v)).
  unfold format_cell. cbn [present value present_cell].
  change (Z.rem 0 2 =? 0) with true. cbv iota.
  repeat match goal with
         | |- context [spaces ?n ≫= _] =>
             let E := fresh "E" in
             destruct (spaces n) eqn:E; [apply spaces_inv in E; subst|done];
             cbn [mbind option_bind]
         end.
  cbn [mret option_ret concat]. intros [= <-].
  eexists (_ + _)%nat, _.
  rewrite app_nil_r, replicate_add, <- app_assoc. reflexivity.
Qed.

(** A stringified key is not empty and does not begin with a space. *)
Lemma to_string_head (key : Z) :
  exists (c : ascii) (v : str), to_string key = c :: v /\ c <> " "%char.
Proof.
  unfold to_string.
  destruct key as [|p|p]; simpl.
  - by eexists _, _.
  - destruct (Pos.to_uint p); simpl; by eexists _, _.
  - by eexists _, _.
Qed.

(** C9, as the code has it.  For a tree whose root has a height between 1
    and 31 (the range in which the [int] shift of [formatGrid] is
    defined), and with enough passes allowed to the grid loop:
    [formatGrid] gives rows of which the first is the row of the root;
    [trimRowsLeft] removes from every row the same number [m] of
    characters, all of them spaces that every row begins with; the first
    row is still the root's key between spaces, and at least one row
    begins with no space.  [display] then writes every row after one
    space character. *)
Theorem display_rows_trimmed_root_first (key h : Z) (l r : Node) (fuel : nat) :
  let root := mkNode key h l r in
  1 <= h <= 31 -> (2 ^ (Z.to_nat h + 1) <= fuel)%nat ->
  exists (grid : DisplayGrid) (formatted : list str) (m a b : nat) (rest : list str),
    generateDisplayGrid fuel root = Some grid /\
    formatGrid grid = Some formatted /\
    trimRowsLeft formatted = map (drop m) formatted /\
    Forall (fun row => (m <= leading_spaces row)%nat) formatted /\
    trimRowsLeft formatted
      = (replicate a " "%char ++ to_string key ++ replicate b " "%char) :: rest /\
    Exists (fun row => leading_spaces row = 0%nat) (trimRowsLeft formatted) /\
    display_lines fuel root
      = Some (map (fun row => " "%char :: row) (trimRowsLeft formatted)).
Proof.
  intros root Hh Hfuel.
  pose proof (generateDisplayGrid_rows key h l r fuel (proj1 Hh) Hfuel) as Hgrid.
  fold root in Hgrid.
  set (grid := map (map to_cell) (add_levels root 0 (replicate (Z.to_nat h) []))) in *.
  assert (Hlen : length grid = Z.to_nat h)
    by (unfold grid; by rewrite length_map, add_levels_length, length_replicate).
  assert (Hrows : forall d row, grid !! d = Some row -> length row = (2 ^ d)%nat).
  { intros d row Hrow. unfold grid in Hrow. rewrite list_lookup_map in Hrow.
    apply fmap_Some in Hrow as (nodes & Hnodes & ->).
    assert (d < Z.to_nat h)%nat.
    { apply lookup_lt_Some in Hnodes.
      by rewrite add_levels_length, length_replicate in Hnodes. }
    rewrite add_levels_root_lookup in Hnodes by done.
    injection Hnodes as <-. by rewrite length_map, level_length. }
  assert (Hrow0 : grid !! 0%nat = Some [present_cell (to_string key)]).
  { unfold grid. rewrite list_lookup_map, add_levels_root_lookup by lia. done. }
  destruct (formatGrid_root_first grid) as (res & pad & row0 & root_line & Hfmt & Hr0 & Hpad & Hline);
    [lia | done |].
  rewrite Hrow0 in Hr0. injection Hr0 as <-.
  apply format_row_root in Hline as (a & b & ->).
  destruct (to_string_head key) as (c & v & Hkey & Hc).
  set (root_line := replicate a " "%char ++ to_string key ++ replicate b " "%char) in *.
  destruct (trimRowsLeft_common root_line res) as (m & Htrim & Hall & Hex).
  assert (Hm : (m <= a)%nat).
  { inversion Hall as [|? ? Hroot _]; subst. unfold root_line in Hroot.
    rewrite Hkey, leading_spaces_replicate in Hroot by done. done. }
  exists grid, (root_line :: res), m, (a - m)%nat, b, (map (drop m) res).
  split; [done|]. split; [done|]. split; [done|]. split; [done|].
  split; [|split].
  - rewrite Htrim. simpl. f_equal. unfold root_line. by apply drop_replicate_app.
  - rewrite Htrim. by apply trimmed_row_without_space.
  - unfold display_lines. simpl height.
    destruct (Z.eqb_spec h 0) as [|_]; [lia|].
    rewrite Hgrid. cbn [mbind option_bind]. rewrite Hfmt. done.
Qed.

Lemma display_rows_trimmed_root_first_witness :
  let root := mkNode 2 3 (mkNode 1 1 Null Null) (mkNode 3 2 Null (mkNode 4 1 Null Null)) in
  exists (grid : DisplayGrid) (formatted : list str) (m a b : nat) (rest : list str),
    generateDisplayGrid 16 root = Some grid /\
    formatGrid grid = Some formatted /\
    trimRowsLeft formatted = map (drop m) formatted /\
    Forall (fun row => (m <= leading_spaces row)%nat) formatted /\
    trimRowsLeft formatted
      = (replicate a " "%char ++ to_string 2 ++ replicate b " "%char) :: rest /\
    Exists (fun row => leading_spaces row = 0%nat) (trimRowsLeft formatted) /\
    display_lines 16 root
      = Some (map (fun row => " "%char :: row) (trimRowsLeft formatted)).
Proof.
  apply (display_rows_trimmed_root_first 2 3 (mkNode 1 1 Null Null)
           (mkNode 3 2 Null (mkNode 4 1 Null Null)) 16).
  - lia.
  - simpl. lia.
Defined.

(** C9 as stated, at the tree that holds the single key 1: [display]
    writes one line, a space followed by the trimmed row ["1 "], so no
    line of the output begins with zero space characters. *)
Lemma display_line_begins_with_space :
  display_lines 8 (new_Node 1) = Some [list_ascii_of_string " 1 "] /\
  display 8 (new_Node 1) = Some (list_ascii_of_string " 1 " ++ [newline]) /\
  ~ Exists (fun line => leading_spaces line = 0%nat) [list_ascii_of_string " 1 "].
Proof.
  split; [reflexivity|]. split; [reflexivity|].
  intros H. apply Exists_cons in H as [H|H]; [discriminate H|].
  by apply Exists_nil in H.
Qed.

(** ** Searching in ordered trees *)

Section Search.

Lemma search_complete (t : Node) (value : Z) :
  bst t -> value ∈ keys t -> exists h l r, search t value = Some (mkNode value h l r).
Proof.
  induction t as [|key h l IHl r IHr]; simpl; intros Hb Hin.
  - by apply elem_of_nil in Hin.
  - destruct Hb as (Hl & Hr & Bl & Br). rewrite Forall_forall in Hl, Hr.
    destruct (Z.eqb_spec key value) as [->|Hne]; [eauto|].
    apply elem_of_app in Hin as [Hin|Hin]; [|apply elem_of_cons in Hin as [->|Hin]; [done|]].
    + specialize (Hl _ Hin) as ?. destruct (Z.ltb_spec key value); [lia|]. auto.
    + specialize (Hr _ Hin) as ?. destruct (Z.ltb_spec key value); [|lia]. auto.
Qed.

Lemma search_is_Some (t : Node) (value : Z) :
  bst t -> (is_Some (search t value) <-> value ∈ keys t).
Proof.
  intros Hb. split.
  - intros [n Hn]. by apply search_Some_key in Hn as (? & ? & ? & _ & ?).
  - intros Hin. destruct (search_complete t value Hb Hin) as (? & ? & ? & ->). eauto.
Qed.

End Search.

(** X1. On an ordered tree [search] decides membership: a value that is
    a key of the tree is found, in a node that holds this value as its
    key, and for a value that is no key of the tree the result is
    absent. *)
Theorem search_decides_membership (t : Node) (value : Z) :
  bst t ->
  (value ∈ keys t -> exists h l r, search t value = Some (mkNode value h l r)) /\
  (value ∉ keys t -> search t value = None).
Proof.
  intros Hb. split; [by apply search_complete | apply search_absent].
Qed.

Lemma search_decides_membership_witness :
  let t := mkNode 2 2 (mkNode 1 1 Null Null) (mkNode 3 1 Null Null) in
  bst t /\
  (3 ∈ keys t -> exists h l r, search t 3 = Some (mkNode 3 h l r)) /\
  (3 ∉ keys t -> search t 3 = None).
Proof.
  assert (Hb : bst (mkNode 2 2 (mkNode 1 1 Null Null) (mkNode 3 1 Null Null))).
  { simpl. repeat split; repeat constructor; lia. }
  split; [exact Hb|].
  exact (search_decides_membership
           (mkNode 2 2 (mkNode 1 1 Null Null) (mkNode 3 1 Null Null)) 3 Hb).
Defined.

(** X2. Insert then search, after any sequence of calls: when [insert]
    returns, the inserted value is found, and every other value is found
    after the call exactly when it was found before. *)
Theorem insert_then_search (ops : list op) (t t' : Node) (value : Z) :
  from_empty ops = Some t -> insert t value = Some t' ->
  (exists h l r, search t' value = Some (mkNode value h l r)) /\
  forall w, w <> value -> (is_Some (search t' w) <-> is_Some (search t w)).
Proof.
  intros Ht Hins.
  assert (Hb : bst t) by (by apply (run_bst ops Null)).
  assert (Hb' : bst t') by (by eapply insert_bst).
  split.
  - apply search_complete; [done|]. apply (insert_keys _ _ _ Hins). by left.
  - intros w Hw. rewrite !search_is_Some by done.
    rewrite (insert_keys _ _ _ Hins). tauto.
Qed.

Lemma insert_then_search_witness :
  exists t t',
    from_empty [Insert 3; Insert 1; Insert 4; Remove 3] = Some t /\
    insert t 2 = Some t' /\
    (exists h l r, search t' 2 = Some (mkNode 2 h l r)) /\
    forall w, w <> 2 -> (is_Some (search t' w) <-> is_Some (search t w)).
Proof.
  eexists _, _. split; [reflexivity|]. split; [reflexivity|].
  apply (insert_then_search [Insert 3; Insert 1; Insert 4; Remove 3]); reflexivity.
Defined.

(** ** Trees built by [insert] alone *)

Section InsertsOnly.

Lemma run_inserts_keys (values : list Z) (t0 t : Node) :
  run t0 (map Insert values) = Some t ->
  forall w, w ∈ keys t <-> w ∈ values \/ w ∈ keys t0.
Proof.
  revert t0. induction values as [|v values IH]; simpl; intros t0 H w.
  - injection H as <-. rewrite elem_of_nil. tauto.
  - apply bind_Some in H as (t1 & Hins & H).
    rewrite (IH _ H), (insert_keys _ _ _ Hins), elem_of_cons. tauto.
Qed.

Lemma keys_length_le (t : Node) (values : list Z) :
  bst t -> (forall w, w ∈ keys t -> w ∈ values) ->
  (length (keys t) <= length values)%nat.
Proof.
  intros Hb Hsub. apply submseteq_length, NoDup_submseteq; [|done].
  apply StronglySorted_lt_NoDup. by apply bst_sorted.
Qed.

(** A balanced tree with right cached heights has at least
    [2 ^ (h / 2) - 1] nodes, [h] being its height. *)
Lemma height_bound (t : Node) :
  heights_ok t -> balanced t ->
  2 ^ (height t / 2) <= Z.of_nat (length (keys t)) + 1.
Proof.
  induction t as [|key h l IHl r IHr]; intros Hok Hbal.
  - by vm_compute.
  - destruct Hok as (Hh & Hokl & Hokr). destruct Hbal as (Hb & Hball & Hbalr).
    specialize (IHl Hokl Hball). specialize (IHr Hokr Hbalr).
    pose proof (heights_ok_nonneg l Hokl). pose proof (heights_ok_nonneg r Hokr).
    simpl keys. rewrite length_app. simpl length. simpl height.
    set (m := Z.min (height l) (height r)).
    assert (Hml : 2 ^ (m / 2) <= 2 ^ (height l / 2)).
    { apply Z.pow_le_mono_r; [lia|]. apply Z.div_le_mono; lia. }
    assert (Hmr : 2 ^ (m / 2) <= 2 ^ (height r / 2)).
    { apply Z.pow_le_mono_r; [lia|]. apply Z.div_le_mono; lia. }
    assert (Hh2 : 2 ^ (h / 2) <= 2 ^ (m / 2 + 1)).
    { apply Z.pow_le_mono_r; [lia|].
      replace (m / 2 + 1) with ((m + 1 * 2) / 2) by (rewrite Z.div_add by lia; done).
      apply Z.div_le_mono; lia. }
    rewrite Z.pow_add_r in Hh2 by (try apply Z.div_pos; lia).
    lia.
Qed.

End InsertsOnly.

(** X3. With [insert] alone, whatever the values and their order, every
    call returns (no null pointer is dereferenced), and the tree built is
    ordered, has the right cached height at every node and is balanced at
    every node.  This is also the variadic [insert(value, values...)] on
    a new tree. *)
Theorem inserts_keep_invariants (values : list Z) :
  exists t, from_empty (map Insert values) = Some t /\
            bst t /\ heights_ok t /\ balanced t.
Proof. apply inserts_only_avl. Qed.

(** X4. Membership round trip: in the tree built by inserting a list of
    values, [search] finds a value exactly when it is one of the values
    inserted. *)
Theorem inserts_membership (values : list Z) :
  exists t, from_empty (map Insert values) = Some t /\
            forall w, is_Some (search t w) <-> w ∈ values.
Proof.
  destruct (inserts_only_avl values) as (t & Ht & Hb & _).
  exists t. split; [done|]. intros w.
  rewrite search_is_Some by done.
  rewrite (run_inserts_keys values Null t Ht), elem_of_nil. tauto.
Qed.

(** X5. One [insert] on a tree that is balanced and has right cached
    heights returns a tree that is balanced and has right cached heights,
    and whose height is the former height or one more. *)
Theorem insert_keeps_balance (t : Node) (value : Z) :
  heights_ok t -> balanced t ->
  exists t', insert t value = Some t' /\ heights_ok t' /\ balanced t' /\
             (height t' = height t \/ height t' = height t + 1).
Proof.
  intros Hok Hbal.
  destruct (insert_avl t value Hok Hbal) as (t' & Hins & Hok' & Hbal' & Hh).
  exists t'. repeat split; try done. tauto.
Qed.

Lemma insert_keeps_balance_witness :
  let t := mkNode 3 2 (mkNode 1 1 Null Null) Null in
  heights_ok t /\ balanced t /\
  exists t', insert t 2 = Some t' /\ heights_ok t' /\ balanced t' /\
             (height t' = height t \/ height t' = height t + 1).
Proof.
  assert (Hok : heights_ok (mkNode 3 2 (mkNode 1 1 Null Null) Null))
    by (simpl; repeat split; lia).
  assert (Hbal : balanced (mkNode 3 2 (mkNode 1 1 Null Null) Null))
    by (simpl; repeat split; lia).
  split; [exact Hok|]. split; [exact Hbal|].
  exact (insert_keeps_balance (mkNode 3 2 (mkNode 1 1 Null Null) Null) 2 Hok Hbal).
Defined.

(** X6. Logarithmic height: the tree built by inserting [n] values has a
    height [h] with [2 ^ (h / 2) <= n + 1]. *)
Theorem inserts_height_logarithmic (values : list Z) :
  exists t, from_empty (map Insert values) = Some t /\
            2 ^ (height t / 2) <= Z.of_nat (length values) + 1.
Proof.
  destruct (inserts_only_avl values) as (t & Ht & Hb & Hok & Hbal).
  exists t. split; [done|].
  pose proof (height_bound t Hok Hbal) as Hbound.
  assert (length (keys t) <= length values)%nat; [|lia].
  apply keys_length_le; [done|]. intros w Hw.
  apply (run_inserts_keys values Null t Ht) in Hw as [Hw|Hw]; [done|].
  by apply elem_of_nil in Hw.
Qed.

(** ** Cached heights are never too small *)

Section HeightsCover.

Lemma heights_cover_nonneg (t : Node) : heights_cover t -> 0 <= height t.
Proof.
  induction t as [|key h l IHl r IHr]; simpl; [lia|].
  intros (Hh & Hl & Hr). specialize (IHl Hl). lia.
Qed.

Lemma real_height_le_cached (t : Node) : heights_cover t -> real_height t <= height t.
Proof.
  induction t as [|key h l IHl r IHr]; simpl; [lia|].
  intros (Hh & Hl & Hr). specialize (IHl Hl). specialize (IHr Hr). lia.
Qed.

Lemma node_cover (key : Z) (l r : Node) :
  heights_cover l -> heights_cover r ->
  heights_cover (mkNode key (1 + Z.max (height l) (height r)) l r).
Proof. intros Hl Hr. simpl. repeat split; try done; lia. Qed.

Lemma rightRotation_cover (t t' : Node) :
  heights_cover t -> rightRotation t = Some t' -> heights_cover t'.
Proof.
  destruct t as [|key h [|lkey lh ll lr] r]; simpl; try done.
  intros (_ & (_ & Hll & Hlr) & Hr) [= <-]. simpl. repeat split; try done; lia.
Qed.

Lemma leftRotation_cover (t t' : Node) :
  heights_cover t -> leftRotation t = Some t' -> heights_cover t'.
Proof.
  destruct t as [|key h l [|rkey rh rl rr]]; simpl; try done.
  intros (_ & Hl & (_ & Hrl & Hrr)) [= <-]. simpl. repeat split; try done; lia.
Qed.

Lemma insert_rebalance_cover (value key : Z) (l r t' : Node) :
  heights_cover l -> heights_cover r ->
  insert_rebalance value key l r = Some t' -> heights_cover t'.
Proof.
  intros Hl Hr. pose proof (node_cover key l r Hl Hr) as Hroot.
  unfold insert_rebalance.
  repeat case_match; try done; intros Hres.
  - eauto using rightRotation_cover.
  - apply bind_Some in Hres as (l' & Hrot & Hres).
    apply (leftRotation_cover _ _ Hl) in Hrot.
    destruct l' as [|lkey' lh' ll' lr']; [simpl in Hres; done|].
    simpl in Hres. injection Hres as <-.
    destruct Hrot as (_ & Hll' & Hlr'). simpl. repeat split; try done; lia.
  - eauto using leftRotation_cover.
  - apply bind_Some in Hres as (r' & Hrot & Hres).
    apply (rightRotation_cover _ _ Hr) in Hrot.
    destruct r' as [|rkey' rh' rl' rr']; [by destruct l|].
    simpl in Hres. injection Hres as <-.
    destruct Hrot as (_ & Hrl' & Hrr'). simpl. repeat split; try done; lia.
  - by injection Hres as <-.
Qed.

Lemma remove_rebalance_cover (key : Z) (l r t' : Node) :
  heights_cover l -> heights_cover r ->
  remove_rebalance key l r = Some t' -> heights_cover t'.
Proof.
  intros Hl Hr. pose proof (node_cover key l r Hl Hr) as Hroot.
  unfold remove_rebalance.
  destruct (remove_double_rotation_cases l r) as [Hc|[[Hc _]|[Hc _]]]; rewrite Hc.
  - by intros [= <-].
  - by apply rightRotation_cover.
  - by apply leftRotation_cover.
Qed.

Lemma remove_finish_cover (t t' : Node) :
  heights_cover t -> remove_finish t = Some t' -> heights_cover t'.
Proof.
  destruct t as [|key h l r]; simpl; [by intros _ [= <-]|].
  intros (_ & Hl & Hr). by apply remove_rebalance_cover.
Qed.

Lemma insert_cover (t t' : Node) (value : Z) :
  heights_cover t -> insert t value = Some t' -> heights_cover t'.
Proof.
  revert t'. induction t as [|key h l IHl r IHr]; simpl; intros t' Hc H.
  - injection H as <-. simpl. repeat split; lia.
  - destruct Hc as (_ & Hl & Hr).
    destruct (value <? key); [|destruct (value >? key)].
    + apply bind_Some in H as (l' & Hins & H). eauto using insert_rebalance_cover.
    + apply bind_Some in H as (r' & Hins & H). eauto using insert_rebalance_cover.
    + eauto using insert_rebalance_cover.
Qed.

(** Detaching the successor keeps the cached height of the node it
    starts from, which covers the smaller subtree that is left. *)
Lemma detach_leftmost_cover (r r' : Node) (skey : Z) :
  heights_cover r -> detach_leftmost r = Some (skey, r') ->
  heights_cover r' /\ height r' = height r.
Proof.
  revert r' skey.
  induction r as [|key h l IHl rr _]; intros r' skey Hc H; [done|].
  destruct l as [|lkey lh ll lr]; [done|].
  destruct Hc as (Hh & Hl & Hrr).
  pose proof (heights_cover_nonneg _ Hl) as Hl0.
  destruct ll as [|llkey llh lll llr].
  - simpl in H. injection H as <- <-. simpl in *. repeat split; try done; lia.
  - change (detach_leftmost (mkNode key h (mkNode lkey lh (mkNode llkey llh lll llr) lr) rr))
      with ('(skey, l') ← detach_leftmost (mkNode lkey lh (mkNode llkey llh lll llr) lr);
            Some (skey, mkNode key h l' rr)) in H.
    destruct (detach_leftmost (mkNode lkey lh (mkNode llkey llh lll llr) lr))
      as [[s l']|] eqn:E; simpl in H; [|done].
    injection H as <- <-.
    destruct (IHl _ _ Hl eq_refl) as (Hl' & Hhl').
    split; [|done]. cbn [heights_cover]. rewrite Hhl'. done.
Qed.

Lemma remove_cover (t t' : Node) (value : Z) :
  heights_cover t -> remove t value = Some t' -> heights_cover t'.
Proof.
  revert t'. induction t as [|key h l IHl r IHr]; intros t' Hc H.
  - simpl in H. by injection H as <-.
  - destruct Hc as (Hh & Hl & Hr). simpl in H.
    destruct (value <? key); [|destruct (value >? key)].
    + apply bind_Some in H as (l' & Hrem & H). eauto using remove_rebalance_cover.
    + apply bind_Some in H as (r' & Hrem & H). eauto using remove_rebalance_cover.
    + destruct r as [|rkey rh rl rr]; [exact (remove_finish_cover _ _ Hl H)|].
      destruct l as [|lkey lh ll lr]; [exact (remove_finish_cover _ _ Hr H)|].
      destruct rl as [|rlkey rlh rll rlr].
      * eapply remove_rebalance_cover; [exact Hl| |exact H]. by destruct Hr as (_ & _ & ?).
      * destruct (detach_leftmost (mkNode rkey rh (mkNode rlkey rlh rll rlr) rr))
          as [[skey r']|] eqn:Ed; simpl in H; [|done].
        apply (detach_leftmost_cover _ _ _ Hr) in Ed as (Hr' & _).
        eauto using remove_rebalance_cover.
Qed.

Lemma run_cover (ops : list op) (t t' : Node) :
  heights_cover t -> run t ops = Some t' -> heights_cover t'.
Proof.
  revert t. induction ops as [|o ops IH]; simpl; intros t Hc H.
  - by injection H as <-.
  - apply bind_Some in H as (t1 & Hop & H). apply (IH t1); [|done].
    destruct o as [v|v]; simpl in Hop; eauto using insert_cover, remove_cover.
Qed.

End HeightsCover.

(** X7. After every sequence of calls the cached height of every node is
    at least one more than the cached heights of its children, and at
    least 1; so the cached height of the tree is never below its real
    height, although it can be above it after a [remove]. *)
Theorem cached_heights_never_too_small (ops : list op) (t : Node) :
  from_empty ops = Some t ->
  heights_cover t /\ heights_pos t /\ real_height t <= height t.
Proof.
  intros Ht.
  assert (Hc : heights_cover t) by (by apply (run_cover ops Null)).
  split; [done|]. split; [by apply (run_pos ops Null)|].
  by apply real_height_le_cached.
Qed.

Lemma cached_heights_never_too_small_witness :
  exists t, from_empty [Insert 2; Insert 1; Insert 4; Insert 3; Remove 2] = Some t /\
            heights_cover t /\ heights_pos t /\ real_height t <= height t.
Proof.
  eexists. split; [reflexivity|].
  apply (cached_heights_never_too_small [Insert 2; Insert 1; Insert 4; Insert 3; Remove 2]).
  reflexivity.
Defined.

(** ** What [insert] and [remove] do to the keys *)

Section KeySequences.

Lemma insert_present_keys (t t' : Node) (value : Z) :
  is_Some (search t value) -> insert t value = Some t' -> keys t' = keys t.
Proof.
  revert t'. induction t as [|key h l IHl r IHr]; simpl; intros t' Hs H.
  - by destruct Hs.
  - destruct (Z.eqb_spec key value) as [->|Hne].
    + rewrite Z.ltb_irrefl in H. destruct (Z.gtb_spec value value); [lia|].
      by apply insert_rebalance_keys in H.
    + destruct (Z.ltb_spec key value).
      * destruct (Z.ltb_spec value key); [lia|].
        destruct (Z.gtb_spec value key); [|lia].
        apply bind_Some in H as (r' & Hins & H).
        apply insert_rebalance_keys in H. rewrite H, (IHr r'); done.
      * destruct (Z.ltb_spec value key); [|lia].
        apply bind_Some in H as (l' & Hins & H).
        apply insert_rebalance_keys in H. rewrite H, (IHl l'); done.
Qed.

Lemma remove_absent_keys (t t' : Node) (value : Z) :
  search t value = None -> remove t value = Some t' -> keys t' = keys t.
Proof.
  revert t'. induction t as [|key h l IHl r IHr]; simpl; intros t' Hs H.
  - by injection H as <-.
  - destruct (Z.eqb_spec key value) as [->|Hne]; [done|].
    destruct (Z.ltb_spec key value).
    + destruct (Z.ltb_spec value key); [lia|].
      destruct (Z.gtb_spec value key); [|lia].
      apply bind_Some in H as (r' & Hrem & H).
      apply remove_rebalance_keys in H. rewrite H, (IHr r'); done.
    + destruct (Z.ltb_spec value key); [|lia].
      apply bind_Some in H as (l' & Hrem & H).
      apply remove_rebalance_keys in H. rewrite H, (IHl l'); done.
Qed.

End KeySequences.

(** X8. After every sequence of calls, [remove] returns: it never
    dereferences a null pointer, whatever the value.  (A left-heavy node
    has a left child, because cached heights stay positive.) *)
Theorem remove_never_faults (ops : list op) (t : Node) (value : Z) :
  from_empty ops = Some t -> exists t', remove t value = Some t'.
Proof.
  intros Ht. destruct (remove_total t value) as (t' & Hrem & _); [|eauto].
  by apply (run_pos ops Null).
Qed.

Lemma remove_never_faults_witness :
  exists t, from_empty [Insert 3; Insert 1; Insert 4; Insert 2; Remove 4] = Some t /\
            exists t', remove t 1 = Some t'.
Proof.
  eexists. split; [reflexivity|].
  apply (remove_never_faults [Insert 3; Insert 1; Insert 4; Insert 2; Remove 4]).
  reflexivity.
Defined.

(** X9. After every sequence of calls, a value that has just been
    removed is no key of the tree any more, and [search] for it returns
    absent. *)
Theorem removed_value_not_found (ops : list op) (t t' : Node) (value : Z) :
  from_empty ops = Some t -> remove t value = Some t' ->
  (value ∉ keys t') /\ search t' value = None.
Proof.
  intros Ht Hrem.
  assert (Hnot : value ∉ keys t').
  { eapply remove_key_gone; [|exact Hrem]. by apply (run_bst ops Null). }
  split; [done|]. by apply search_absent.
Qed.

Lemma removed_value_not_found_witness :
  exists t t',
    from_empty [Insert 20; Insert 10; Insert 30; Insert 25; Insert 35] = Some t /\
    remove t 20 = Some t' /\
    (20 ∉ keys t') /\ search t' 20 = None.
Proof.
  eexists _, _. split; [reflexivity|]. split; [reflexivity|].
  eapply (removed_value_not_found [Insert 20; Insert 10; Insert 30; Insert 25; Insert 35]);
    reflexivity.
Defined.

(** X10. On any tree, [remove] adds no key and keeps the order of the
    keys: the in-order keys after the call are a subsequence of the
    in-order keys before it. *)
Theorem remove_only_drops_keys (t t' : Node) (value : Z) :
  remove t value = Some t' -> keys t' `sublist_of` keys t.
Proof. apply remove_keys. Qed.

Lemma remove_only_drops_keys_witness :
  exists t',
    remove (mkNode 2 3 (mkNode 1 1 Null Null) (mkNode 4 2 (mkNode 3 1 Null Null) Null)) 2
      = Some t' /\
    keys t' `sublist_of`
      keys (mkNode 2 3 (mkNode 1 1 Null Null) (mkNode 4 2 (mkNode 3 1 Null Null) Null)).
Proof.
  eexists. split; [reflexivity|].
  apply (remove_only_drops_keys
           (mkNode 2 3 (mkNode 1 1 Null Null) (mkNode 4 2 (mkNode 3 1 Null Null) Null)) _ 2).
  reflexivity.
Defined.

(** X11. On any tree, also one that an earlier [remove] left unbalanced,
    an [insert] of a value that [search] finds and a [remove] of a value
    that [search] does not find leave the in-order key sequence as it
    was, when they return. *)
Theorem no_op_calls_keep_keys (t t' : Node) (value : Z) :
  (is_Some (search t value) /\ insert t value = Some t') \/
  (search t value = None /\ remove t value = Some t') ->
  keys t' = keys t.
Proof.
  intros [[Hs H]|[Hs H]].
  - by eapply insert_present_keys.
  - by eapply remove_absent_keys.
Qed.

Lemma no_op_calls_keep_keys_witness :
  let t := mkNode 1 3 Null (mkNode 3 2 (mkNode 2 1 Null Null) Null) in
  let t' := mkNode 2 2 (mkNode 1 1 Null Null) (mkNode 3 1 Null Null) in
  insert t 1 = Some t' /\ keys t' = keys t.
Proof.
  split; [reflexivity|].
  apply (no_op_calls_keep_keys
           (mkNode 1 3 Null (mkNode 3 2 (mkNode 2 1 Null Null) Null)) _ 1).
  left. split; [eexists|]; reflexivity.
Defined.

(** X12. On an ordered tree, an [insert] of a value that is no key of
    the tree adds this one key and nothing else: the keys after the call
    are the keys before it and the value, and the tree is ordered. *)
Theorem insert_adds_one_key (t t' : Node) (value : Z) :
  bst t -> value ∉ keys t -> insert t value = Some t' ->
  keys t' ≡ₚ value :: keys t /\ bst t'.
Proof.
  intros Hb Hnot Hins.
  assert (Hb' : bst t') by (by eapply insert_bst).
  split; [|done].
  apply NoDup_Permutation.
  - apply StronglySorted_lt_NoDup. by apply bst_sorted.
  - apply NoDup_cons. split; [done|].
    apply StronglySorted_lt_NoDup. by apply bst_sorted.
  - intros x. rewrite (insert_keys _ _ _ Hins), elem_of_cons. tauto.
Qed.

Lemma insert_adds_one_key_witness :
  let t := mkNode 3 2 (mkNode 1 1 Null Null) Null in
  exists t', insert t 2 = Some t' /\ keys t' ≡ₚ 2 :: keys t /\ bst t'.
Proof.
  eexists. split; [reflexivity|].
  apply (insert_adds_one_key (mkNode 3 2 (mkNode 1 1 Null Null) Null) _ 2).
  - simpl. repeat split; repeat constructor; lia.
  - simpl. intros H. repeat (apply elem_of_cons in H as [H|H]; [lia|]).
    by apply elem_of_nil in H.
  - reflexivity.
Defined.

(** ** Rotations *)

(** X13. A right rotation followed by a left rotation gives back the
    tree, and so does a left rotation followed by a right rotation, when
    the cached heights of the tree are right; a rotation keeps the
    in-order key sequence and gives right cached heights again. *)
Theorem rotations_are_inverse (t t' : Node) :
  heights_ok t ->
  (rightRotation t = Some t' -> leftRotation t' = Some t /\ heights_ok t' /\ keys t' = keys t) /\
  (leftRotation t = Some t' -> rightRotation t' = Some t /\ heights_ok t' /\ keys t' = keys t).
Proof.
  intros Hok. split; intros Hrot.
  - pose proof (rightRotation_keys _ _ Hrot) as Hk.
    destruct t as [|key h [|lkey lh ll lr] r]; try done.
    simpl in Hrot. injection Hrot as <-.
    destruct Hok as (-> & (-> & Hll & Hlr) & Hr).
    split; [reflexivity|]. split; [|done]. simpl. repeat split; done.
  - pose proof (leftRotation_keys _ _ Hrot) as Hk.
    destruct t as [|key h l [|rkey rh rl rr]]; try done.
    simpl in Hrot. injection Hrot as <-.
    destruct Hok as (-> & Hl & (-> & Hrl & Hrr)).
    split; [reflexivity|]. split; [|done]. simpl. repeat split; done.
Qed.

Lemma rotations_are_inverse_witness :
  let t := mkNode 3 3 (mkNode 1 2 Null (mkNode 2 1 Null Null)) Null in
  exists t', rightRotation t = Some t' /\
             leftRotation t' = Some t /\ heights_ok t' /\ keys t' = keys t.
Proof.
  eexists. split; [reflexivity|].
  apply (rotations_are_inverse
           (mkNode 3 3 (mkNode 1 2 Null (mkNode 2 1 Null Null)) Null)).
  - simpl. repeat split; lia.
  - reflexivity.
Defined.

(** ** More about the rows of text *)

Section TrimMore.

Lemma trim_scan_Exists (rws : list str) (m0 : nat) :
  Exists (fun row => leading_spaces row = 0%nat) rws -> trim_scan rws m0 = None.
Proof.
  intros Hex. revert m0. induction Hex as [row rws Hrow|row rws Hex IH]; intros m0; simpl;
    fold (leading_spaces row).
  - by rewrite Hrow.
  - destruct (leading_spaces row =? 0)%nat; [done|]. apply IH.
Qed.

Lemma trimRowsLeft_length (rws : list str) : length (trimRowsLeft rws) = length rws.
Proof.
  destruct rws as [|front rest]; [done|].
  destruct (trimRowsLeft_common front rest) as (m & -> & _). by rewrite length_map.
Qed.

End TrimMore.

(** X14. [trimRowsLeft] on any non-empty vector of rows removes the same
    number [m] of characters from the beginning of every row; every row
    begins with at least [m] spaces, so only spaces are removed; and
    afterwards at least one row begins with no space (it may be empty). *)
Theorem trimRowsLeft_removes_common_spaces (front : str) (rest : list str) :
  exists m,
    trimRowsLeft (front :: rest) = map (drop m) (front :: rest) /\
    Forall (fun row => take m row = replicate m " "%char) (front :: rest) /\
    Exists (fun row => leading_spaces row = 0%nat) (trimRowsLeft (front :: rest)).
Proof.
  destruct (trimRowsLeft_common front rest) as (m & Htrim & Hall & Hex).
  exists m. split; [done|]. split.
  - eapply Forall_impl; [exact Hall|]. intros row. simpl. clear.
    revert m. induction row as [|c row IH]; intros m Hm.
    + rewrite leading_spaces_nil in Hm. by replace m with 0%nat by lia.
    + destruct m as [|m]; [done|].
      destruct (ascii_dec c " ") as [->|Hc].
      * rewrite leading_spaces_space in Hm. simpl. f_equal. apply IH. lia.
      * rewrite leading_spaces_other in Hm by done. lia.
  - rewrite Htrim. by apply trimmed_row_without_space.
Qed.

(** X15. Trimming twice is trimming once. *)
Theorem trimRowsLeft_idempotent (rws : list str) :
  trimRowsLeft (trimRowsLeft rws) = trimRowsLeft rws.
Proof.
  destruct rws as [|front rest]; [done|].
  destruct (trimRowsLeft_common front rest) as (m & Htrim & Hall & Hex).
  pose proof (trimmed_row_without_space m _ Hall Hex) as Hzero.
  rewrite <- Htrim in Hzero.
  destruct (trimRowsLeft (front :: rest)) as [|front' rest'] eqn:E; [done|].
  unfold trimRowsLeft at 1. by rewrite (trim_scan_Exists _ _ Hzero).
Qed.

(** X16. The text of a cell is exactly [cw] characters wide.  A present
    value that fits is written between two runs of spaces whose lengths
    differ by at most one; the longer run is on the left in an even
    column (a left child) and on the right in an odd column. *)
Theorem format_cell_centred (cw c : Z) (cell : cell_display) :
  0 <= cw -> 0 <= c ->
  (present cell = true -> Z.of_nat (length (value cell)) <= cw) ->
  exists txt, format_cell cw c cell = Some txt /\
    Z.of_nat (length txt) = cw /\
    (present cell = false -> txt = replicate (Z.to_nat cw) " "%char) /\
    (present cell = true ->
     exists a b : nat,
       txt = replicate a " "%char ++ value cell ++ replicate b " "%char /\
       (if Z.even c then (b <= a <= b + 1)%nat else (a <= b <= a + 1)%nat)).
Proof.
  intros Hcw Hc Hfit. unfold format_cell.
  destruct (present cell) eqn:Hp.
  - specialize (Hfit eq_refl).
    set (n := cw - Z.of_nat (length (value cell))).
    assert (Hn : 0 <= n) by (unfold n; lia).
    assert (Hq : 0 <= Z.quot n 2 <= n /\ n - 1 <= 2 * Z.quot n 2 <= n)
      by (rewrite Z.quot_div_nonneg by lia; Z.div_mod_to_equations; lia).
    assert (Hrem : (Z.rem c 2 =? 0) = Z.even c).
    { rewrite Z.rem_mod_nonneg by lia. by rewrite Zeven_mod. }
    rewrite Hrem.
    destruct (Z.even c); rewrite !spaces_Some by lia; cbn [mbind option_bind];
      (eexists; split; [reflexivity|]);
      (split; [rewrite !length_app, !length_replicate; unfold n in *; lia|]);
      (split; [done|]); intros _; eexists _, _; (split; [reflexivity|]); lia.
  - rewrite spaces_Some by lia. eexists. split; [reflexivity|].
    split; [rewrite length_replicate; lia|]. split; done.
Qed.

Lemma format_cell_centred_witness :
  exists txt, format_cell 5 1 (present_cell (to_string 42)) = Some txt /\
    Z.of_nat (length txt) = 5 /\
    (present (present_cell (to_string 42)) = false -> txt = replicate (Z.to_nat 5) " "%char) /\
    (present (present_cell (to_string 42)) = true ->
     exists a b : nat,
       txt = replicate a " "%char ++ value (present_cell (to_string 42))
               ++ replicate b " "%char /\
       (if Z.even 1 then (b <= a <= b + 1)%nat else (a <= b <= a + 1)%nat)).
Proof.
  apply (format_cell_centred 5 1 (present_cell (to_string 42))).
  - lia.
  - lia.
  - intros _. vm_compute. discriminate.
Defined.

(** ** The grid holds every key *)

Section GridKeys.

Lemma own_keys_app (l1 l2 : list Node) : own_keys (l1 ++ l2) = own_keys l1 ++ own_keys l2.
Proof. apply flat_map_app. Qed.

Lemma own_keys_concat (ls : list (list Node)) :
  own_keys (concat ls) = concat (map own_keys ls).
Proof.
  induction ls as [|l ls IH]; [done|]. simpl. by rewrite own_keys_app, IH.
Qed.

Lemma own_keys_level_Null (d : nat) : own_keys (level Null d) = [].
Proof. induction d as [|d IH]; [done|]. simpl. by rewrite own_keys_app, IH. Qed.

Lemma level_order_Null (n : nat) : level_order Null n = [].
Proof.
  unfold level_order. induction (seq 0 n) as [|d ds IH]; [done|].
  simpl. by rewrite own_keys_level_Null, IH.
Qed.

Lemma concat_map_app_perm (f g : nat -> list Z) (ds : list nat) :
  concat (map (fun d => f d ++ g d) ds) ≡ₚ concat (map f ds) ++ concat (map g ds).
Proof.
  induction ds as [|d ds IH]; [done|]. simpl. rewrite IH.
  rewrite <- !app_assoc. apply Permutation_app_head.
  rewrite !app_assoc. apply Permutation_app_tail. apply Permutation_app_comm.
Qed.

Lemma level_order_node (key h : Z) (l r : Node) (n : nat) :
  level_order (mkNode key h l r) (S n) ≡ₚ key :: level_order l n ++ level_order r n.
Proof.
  unfold level_order. rewrite <- cons_seq, <- seq_shift. simpl.
  apply Permutation_cons; [done|].
  rewrite map_map. simpl.
  rewrite (map_ext _ (fun d => own_keys (level l d) ++ own_keys (level r d)))
    by (intros d; apply own_keys_app).
  apply concat_map_app_perm.
Qed.

(** The first [n] levels hold all the keys when the tree has no more
    than [n] levels. *)
Lemma level_order_keys (n : nat) (t : Node) :
  real_height t <= Z.of_nat n -> level_order t n ≡ₚ keys t.
Proof.
  revert t. induction n as [|n IH]; intros t Hh.
  - destruct t as [|key h l r]; [done|]. simpl in Hh.
    assert (0 <= real_height l) by (clear; induction l; simpl; lia). lia.
  - destruct t as [|key h l r]; [by rewrite level_order_Null|].
    simpl in Hh. rewrite level_order_node, (IH l), (IH r) by lia.
    simpl. by rewrite Permutation_middle.
Qed.

Lemma present_values (nodes : list Node) :
  map value (List.filter present (map to_cell nodes)) = map to_string (own_keys nodes).
Proof.
  induction nodes as [|pn nodes IH]; [done|].
  destruct pn as [|key h l r]; simpl; by rewrite IH.
Qed.

Lemma add_levels_root_rows (root : Node) (n : nat) :
  add_levels root 0 (replicate n []) = map (level root) (seq 0 n).
Proof.
  apply list_eq. intros d. rewrite list_lookup_map.
  destruct (decide (d < n)%nat) as [Hd|Hd].
  - rewrite add_levels_root_lookup by done. by rewrite lookup_seq_lt.
  - rewrite lookup_seq_ge by lia. simpl.
    apply lookup_ge_None. rewrite add_levels_length, length_replicate. lia.
Qed.

End GridKeys.

(** X17. After every sequence of calls that leaves a non-empty tree, the
    grid built for the tree (with enough passes allowed to the loop) holds
    every key of the tree: the values of its present cells are the
    stringified keys of the tree, each node once.  A stale cached height
    only adds empty rows. *)
Theorem grid_holds_every_key (ops : list op) (key h : Z) (l r : Node) (fuel : nat) :
  let root := mkNode key h l r in
  from_empty ops = Some root -> (2 ^ (Z.to_nat h + 1) <= fuel)%nat ->
  exists grid,
    generateDisplayGrid fuel root = Some grid /\
    map value (List.filter present (concat grid)) ≡ₚ map to_string (keys root).
Proof.
  intros root Ht Hfuel.
  assert (Hcover : heights_cover root) by (by apply (run_cover ops Null)).
  assert (Hpos : 1 <= h) by (apply (run_pos ops Null) in Ht; [by destruct Ht|done]).
  eexists. split; [by apply generateDisplayGrid_rows|].
  rewrite add_levels_root_rows, <- concat_map, present_values, own_keys_concat, map_map.
  apply Permutation_map. apply level_order_keys.
  apply real_height_le_cached in Hcover. simpl height in Hcover. lia.
Qed.

Lemma grid_holds_every_key_witness :
  let root := mkNode 3 3 (mkNode 1 1 Null Null) (mkNode 4 2 Null Null) in
  from_empty [Insert 2; Insert 1; Insert 4; Insert 3; Remove 2] = Some root /\
  exists grid,
    generateDisplayGrid 16 root = Some grid /\
    map value (List.filter present (concat grid)) ≡ₚ map to_string (keys root).
Proof.
  split; [reflexivity|].
  apply (grid_holds_every_key [Insert 2; Insert 1; Insert 4; Insert 3; Remove 2]
           3 3 (mkNode 1 1 Null Null) (mkNode 4 2 Null Null) 16).
  - reflexivity.
  - simpl. lia.
Defined.

(** ** The number of lines *)

Section LineCount.

Variable grid : DisplayGrid.
Variable cw half : Z.
Hypothesis cw_ge_3 : 3 <= cw.
Hypothesis cw_odd : cw + 1 = 2 * half.

(** Each level above the last adds its row of values and [space] rows of
    slashes. *)
Lemma format_levels_length (todo : nat) :
  forall (row_count r row_elem_count left_pad : Z) (result res : list str),
    (1 <= todo)%nat -> 0 <= r ->
    row_elem_count = 2 ^ (Z.of_nat todo - 1) ->
    format_levels todo grid cw row_count r row_elem_count left_pad result = Some res ->
    Z.of_nat (length res)
    = Z.of_nat (length result) + 1 + half * (2 ^ (r + Z.of_nat todo - 1) - 2 ^ r).
Proof using cw_ge_3 cw_odd.
  induction todo as [|todo IH];
    intros row_count r row_elem_count left_pad result res Htodo Hr Hn H; [lia|].
  rewrite format_levels_S in H.
  apply bind_Some in H as (gridRow & _ & H). cbv zeta in H.
  apply bind_Some in H as (row & _ & H).
  destruct (Z.eqb_spec row_elem_count 1) as [Hone|Hmore].
  - injection H as <-.
    assert (todo = 0%nat) as ->.
    { destruct todo as [|todo']; [done|].
      assert (2 ^ 1 <= 2 ^ (Z.of_nat (S (S todo')) - 1)) by (apply Z.pow_le_mono_r; lia).
      lia. }
    rewrite length_app. simpl length.
    replace (r + Z.of_nat 1 - 1) with r by lia. lia.
  - assert (1 <= todo)%nat.
    { destruct todo as [|todo']; [|lia]. exfalso. apply Hmore. rewrite Hn. done. }
    apply bind_Some in H as (slashes & Hslashes & H).
    assert (Hspace : Z.quot (Z.shiftl 1 r * (cw + 1)) 2 - 1 = 2 ^ r * half - 1).
    { rewrite Z.shiftl_1_l, cw_odd.
      replace (2 ^ r * (2 * half)) with (2 ^ r * half * 2) by lia.
      by rewrite Z.quot_mul by lia. }
    rewrite Hspace in Hslashes, H.
    apply length_mapM in Hslashes. rewrite length_seqZ in Hslashes.
    assert (1 <= 2 ^ r) by (pose proof (Z.pow_pos_nonneg 2 r); lia).
    assert (2 <= half) by lia.
    apply IH in H; try lia.
    + rewrite H, !length_app, <- Hslashes. simpl length.
      replace (r + 1 + Z.of_nat todo - 1) with (r + Z.of_nat (S todo) - 1) by lia.
      rewrite (Z.pow_add_r 2 r 1) by lia. nia.
    + rewrite Hn. replace (Z.of_nat (S todo) - 1) with (Z.succ (Z.of_nat todo - 1)) by lia.
      rewrite Z.pow_succ_r by lia.
      rewrite Z.mul_comm, Z.quot_mul by lia. done.
Qed.

End LineCount.

Lemma cell_width_odd (grid : DisplayGrid) :
  cell_width grid + 1 = 2 * ((cell_width grid + 1) / 2).
Proof.
  unfold cell_width.
  destruct (Z.eqb_spec (Z.rem (longest_value grid) 2) 0) as [E|E];
    pose proof (Z.quot_rem (longest_value grid) 2 ltac:(lia)) as Hqr;
    pose proof (Z.rem_bound_abs (longest_value grid) 2 ltac:(lia)) as Hb;
    pose proof (longest_value_max grid) as Hmax;
    pose proof (Z.rem_nonneg (longest_value grid) 2 ltac:(lia) ltac:(lia)) as Hnn;
    Z.div_mod_to_equations; lia.
Qed.

Lemma formatGrid_length (grid : DisplayGrid) (formatted : list str) :
  (1 <= length grid)%nat ->
  formatGrid grid = Some formatted ->
  Z.of_nat (length formatted)
  = 1 + (cell_width grid + 1) / 2 * (2 ^ (Z.of_nat (length grid) - 1) - 1).
Proof.
  intros Hlen. unfold formatGrid, int_shl_one.
  destruct ((0 <=? Z.of_nat (length grid) - 1) && (Z.of_nat (length grid) - 1 <? 31));
    [|done].
  cbn [mbind option_bind]. intros H.
  apply bind_Some in H as (res & Hres & H). injection H as <-.
  apply (format_levels_length grid (cell_width grid) ((cell_width grid + 1) / 2)
           (cell_width_ge_3 grid) (cell_width_odd grid)) in Hres;
    [|lia|lia|by rewrite Z.shiftl_1_l].
  rewrite length_reverse, Hres. simpl length.
  replace (0 + Z.of_nat (length grid) - 1) with (Z.of_nat (length grid) - 1) by lia.
  change (2 ^ 0) with 1. lia.
Qed.

(** X18. The size of the picture.  For a tree whose root has a height
    [h] between 1 and 31, and with enough passes allowed to the grid
    loop, [display] returns, and the number of lines it writes is
    [1 + (w + 1) / 2 * (2 ^ (h - 1) - 1)], [w] being the cell width of
    the grid: the count doubles, roughly, with every level. *)
Theorem display_line_count (key h : Z) (l r : Node) (fuel : nat) :
  let root := mkNode key h l r in
  1 <= h <= 31 -> (2 ^ (Z.to_nat h + 1) <= fuel)%nat ->
  exists (grid : DisplayGrid) (lines : list str),
    generateDisplayGrid fuel root = Some grid /\
    display_lines fuel root = Some lines /\
    Z.of_nat (length lines) = 1 + (cell_width grid + 1) / 2 * (2 ^ (h - 1) - 1).
Proof.
  intros root Hh Hfuel.
  pose proof (generateDisplayGrid_rows key h l r fuel (proj1 Hh) Hfuel) as Hgrid.
  fold root in Hgrid.
  set (grid := map (map to_cell) (add_levels root 0 (replicate (Z.to_nat h) []))) in *.
  assert (Hlen : length grid = Z.to_nat h)
    by (unfold grid; by rewrite length_map, add_levels_length, length_replicate).
  assert (Hrows : forall d row, grid !! d = Some row -> length row = (2 ^ d)%nat).
  { intros d row Hrow. unfold grid in Hrow. rewrite list_lookup_map in Hrow.
    apply fmap_Some in Hrow as (nodes & Hnodes & ->).
    assert (d < Z.to_nat h)%nat.
    { apply lookup_lt_Some in Hnodes.
      by rewrite add_levels_length, length_replicate in Hnodes. }
    rewrite add_levels_root_lookup in Hnodes by done.
    injection Hnodes as <-. by rewrite length_map, level_length. }
  destruct (formatGrid_root_first grid) as (res & pad & row0 & root_line & Hfmt & _);
    [lia | done |].
  exists grid, (map (fun row => " "%char :: row) (trimRowsLeft (root_line :: res))).
  split; [done|]. split.
  - unfold display_lines. simpl height.
    destruct (Z.eqb_spec h 0) as [|_]; [lia|].
    rewrite Hgrid. cbn [mbind option_bind]. rewrite Hfmt. done.
  - rewrite length_map, trimRowsLeft_length.
    rewrite (formatGrid_length grid _ ltac:(lia) Hfmt), Hlen.
    by rewrite Z2Nat.id by lia.
Qed.

Lemma display_line_count_witness :
  let root := mkNode 2 3 (mkNode 1 1 Null Null) (mkNode 3 2 Null (mkNode 4 1 Null Null)) in
  exists (grid : DisplayGrid) (lines : list str),
    generateDisplayGrid 16 root = Some grid /\
    display_lines 16 root = Some lines /\
    Z.of_nat (length lines) = 1 + (cell_width grid + 1) / 2 * (2 ^ (3 - 1) - 1).
Proof.
  apply (display_line_count 2 3 (mkNode 1 1 Null Null)
           (mkNode 3 2 Null (mkNode 4 1 Null Null)) 16).
  - lia.
  - simpl. lia.
Defined.

(** ** The menu *)

(** X19. Whatever [unsigned short] was read as the response,
    [printMenu] does not return [UserChoice::Invalid]: a response from 1
    to 4 is returned as it is, and any other response becomes 65535,
    which matches no [case] of the [switch] of [main].  So the
    "Invalid choice" case of [main] is never taken. *)
Theorem printMenu_never_Invalid (response : Z) :
  0 <= response < 2 ^ 16 ->
  Menu.printMenu response <> Menu.Invalid /\
  Menu.main_switch (Menu.printMenu response) <> Menu.SayInvalid /\
  (1 <= response <= 4 -> Menu.printMenu response = response) /\
  (~ 1 <= response <= 4 ->
   Menu.printMenu response = 65535 /\
   Menu.main_switch (Menu.printMenu response) = Menu.NoCase).
Proof.
  intros Hr. unfold Menu.printMenu.
  destruct (Z.leb_spec 1 response); destruct (Z.leb_spec response 4);
    cbn [andb negb].
  - repeat split; try lia.
    + unfold Menu.Invalid. lia.
    + unfold Menu.main_switch, Menu.Invalid.
      destruct (Z.eqb_spec response 0); [lia|]. by repeat case_match.
  - repeat split; try lia; try done.
  - repeat split; try lia; try done.
  - lia.
Qed.

Lemma printMenu_never_Invalid_witness :
  0 <= 7 < 2 ^ 16 /\
  Menu.printMenu 7 <> Menu.Invalid /\
  Menu.main_switch (Menu.printMenu 7) <> Menu.SayInvalid /\
  (1 <= 7 <= 4 -> Menu.printMenu 7 = 7) /\
  (~ 1 <= 7 <= 4 ->
   Menu.printMenu 7 = 65535 /\
   Menu.main_switch (Menu.printMenu 7) = Menu.NoCase).
Proof.
  assert (H : 0 <= 7 < 2 ^ 16) by lia.
  split; [exact H|]. exact (printMenu_never_Invalid 7 H).
Defined.
